(** * Box and Marble: the puzzle generator and the answer evaluator

    A shallow embedding of [box-and-marble-script.js].  The DOM side of the
    script (element creation, listeners, rendering) carries no logic and is
    left out; what is embedded is [GAME_CONFIG], [GameState], the validation
    predicate [checkContentsMatchLabel], the evaluator ([calculateResults],
    [getCorrectLabelForBox], [checkAnswers], the submit gate of
    [updateSubmitButtonState]) and the generator
    ([generatePuzzleConfiguration] and the functions it calls). *)

From Stdlib Require Import Ascii String.
From stdpp Require Import base strings list gmap sets.

Open Scope string_scope.
Open Scope nat_scope.

(** ** JavaScript values and objects *)

Module JS.

(** The values the embedded code manipulates: strings, [undefined], and the
    members every plain object inherits from [Object.prototype]. *)
Inductive value : Type :=
| VUndefined
| VString (s : string)
| VFunction (name : string)
| VObjectPrototype.

#[global] Instance value_eq_dec : EqDecision value.
Proof. solve_decision. Defined.

(** [ToBoolean]: the empty string and [undefined] are falsy, functions and
    objects are truthy. *)
Definition truthy (v : value) : bool :=
  match v with
  | VUndefined => false
  | VString s => negb (bool_decide (s = ""))
  | VFunction _ => true
  | VObjectPrototype => true
  end.

(** [a || b] *)
Definition or (a b : value) : value := if truthy a then a else b.

(** [a === b]: on strings value equality, on [undefined] true, on
    functions and objects identity. *)
Definition strict_eq (a b : value) : bool := bool_decide (a = b).

(** Function-valued properties of [Object.prototype] (ECMAScript 20.1.3 and
    Annex B.2.2). *)
Definition object_prototype_methods : list string :=
  [ "constructor"; "hasOwnProperty"; "isPrototypeOf";
    "propertyIsEnumerable"; "toLocaleString"; "toString"; "valueOf";
    "__defineGetter__"; "__defineSetter__"; "__lookupGetter__";
    "__lookupSetter__" ].

(** [Object.prototype[k]]; the accessor [__proto__] of [Object.prototype],
    read through an object literal, gives [Object.prototype] itself. *)
Definition object_prototype (k : string) : value :=
  if bool_decide (k ∈ object_prototype_methods) then VFunction k
  else if bool_decide (k = "__proto__") then VObjectPrototype
  else VUndefined.

(** [o[k]] for a plain object [o] (an object literal) whose own properties
    hold strings: an own property first, then the prototype chain. *)
Definition get (o : gmap string string) (k : string) : value :=
  match o !! k with
  | Some s => VString s
  | None => object_prototype k
  end.

(** [String.prototype.toLowerCase] on ASCII strings: the letters A-Z are
    mapped, every other character is left as it is.  JavaScript also maps
    letters outside ASCII; the embedding is applied to ASCII strings only. *)
Definition toLowerCase_ascii (c : ascii) : ascii :=
  let n := nat_of_ascii c in
  if Nat.leb 65 n && Nat.leb n 90 then ascii_of_nat (n + 32) else c.

Fixpoint toLowerCase (s : string) : string :=
  match s with
  | EmptyString => EmptyString
  | String c s' => String (toLowerCase_ascii c) (toLowerCase s')
  end.

(** [s.replace(pattern, replacement)] with a string pattern: only the first
    occurrence is replaced (the replacement holds no [$] pattern here). *)
Fixpoint replace (pattern replacement s : string) : string :=
  if String.prefix pattern s
  then String.append replacement
         (String.substring (String.length pattern)
            (String.length s - String.length pattern) s)
  else match s with
       | EmptyString => EmptyString
       | String c s' => String c (replace pattern replacement s')
       end.

(** The completion of a call: a normal return or a thrown exception. *)
Inductive outcome (A : Type) : Type :=
| Returned (a : A)
| Thrown (error : string).
Arguments Returned {A} a.
Arguments Thrown {A} error.

Definition bind {A B} (o : outcome A) (k : A → outcome B) : outcome B :=
  match o with
  | Returned a => k a
  | Thrown e => Thrown e
  end.

(** [String.prototype.toUpperCase] on ASCII strings: the letters a-z are
    mapped, every other character is left as it is.  JavaScript also maps
    letters outside ASCII; the embedding is applied to ASCII strings only. *)
Definition toUpperCase_ascii (c : ascii) : ascii :=
  let n := nat_of_ascii c in
  if Nat.leb 97 n && Nat.leb n 122 then ascii_of_nat (n - 32) else c.

Fixpoint toUpperCase (s : string) : string :=
  match s with
  | EmptyString => EmptyString
  | String c s' => String (toUpperCase_ascii c) (toUpperCase s')
  end.

(** [s.charAt(i)]: the empty string when there is no character [i]. *)
Definition charAt (i : nat) (s : string) : string :=
  match String.get i s with
  | Some c => String c EmptyString
  | None => EmptyString
  end.

(** [s.slice(start)] for a start that is not negative. *)
Definition slice (start : nat) (s : string) : string :=
  String.substring start (String.length s - start) s.

(** [s.split(separator)] for a separator of one character; the result is
    never empty: [''.split('-')] is [['']]. *)
Fixpoint split (separator : ascii) (s : string) : list string :=
  match s with
  | EmptyString => [EmptyString]
  | String c s' =>
      if bool_decide (c = separator) then EmptyString :: split separator s'
      else match split separator s' with
           | piece :: pieces => String c piece :: pieces
           | [] => [String c EmptyString]
           end
  end.

(** [pieces.join(separator)] *)
Definition join (separator : string) (pieces : list string) : string :=
  String.concat separator pieces.

End JS.

(** ** Game configuration and state *)

Module GAME_CONFIG.
Definition BOX_LABELS : list string :=
  ["White and White"; "Red and Red"; "Red and White"].
Definition BOX_CONTENTS : list string :=
  ["white-white"; "red-red"; "red-white"].
Definition MAX_ATTEMPTS : nat := 50.
Definition BOX_COUNT : nat := 3.
End GAME_CONFIG.

Definition BOX_IDS : list string := ["matchbox-1"; "matchbox-2"; "matchbox-3"].

(** A box of [GameState.boxes]; the [element] field (a DOM node) is left out. *)
Record Box : Type := mkBox {
  id : string;
  contents : string;
  label : string
}.

#[global] Instance Box_eq_dec : EqDecision Box.
Proof. solve_decision. Defined.

Definition set_contents (box : Box) (c : string) : Box :=
  {| id := id box; contents := c; label := label box |}.
Definition set_label (box : Box) (l : string) : Box :=
  {| id := id box; contents := contents box; label := l |}.

Record GameState : Type := mkGameState {
  boxes : list Box;
  selectedBox : option string;
  hasCheckedBox : bool;
  userLabelSelections : gmap string string
}.

Definition set_boxes (st : GameState) (bs : list Box) : GameState :=
  {| boxes := bs; selectedBox := selectedBox st;
     hasCheckedBox := hasCheckedBox st;
     userLabelSelections := userLabelSelections st |}.

(** The change listener of a label selector:
    [GameState.userLabelSelections[box.id] = e.target.value]. *)
Definition recordSelection (i v : string) (st : GameState) : GameState :=
  {| boxes := boxes st; selectedBox := selectedBox st;
     hasCheckedBox := hasCheckedBox st;
     userLabelSelections := <[i := v]> (userLabelSelections st) |}.

(** [BOX_IDS.reduce((acc, id) => { acc[id] = ''; return acc; }, {})] *)
Definition emptySelections : gmap string string :=
  foldl (λ acc i, <[i := ""]> acc) ∅ BOX_IDS.

Definition initialGameState : GameState :=
  {| boxes := (λ i, {| id := i; contents := ""; label := "" |}) <$> BOX_IDS;
     selectedBox := None;
     hasCheckedBox := false;
     userLabelSelections := emptySelections |}.

(** [GameState.reset()] *)
Definition reset (st : GameState) : GameState :=
  {| boxes := (λ box, set_label (set_contents box "") "") <$> boxes st;
     selectedBox := None;
     hasCheckedBox := false;
     userLabelSelections := emptySelections |}.

(** ** Game logic and validation *)

Definition checkContentsMatchLabel (box : Box) : bool :=
  let normalizedLabel := JS.replace " and " "-" (JS.toLowerCase (label box)) in
  bool_decide (normalizedLabel = contents box).

(** ** Answer checking *)

Definition contentsToLabel : gmap string string :=
  <["white-white" := "White and White"]>
    (<["red-red" := "Red and Red"]>
      (<["red-white" := "Red and White"]> ∅)).

Definition getCorrectLabelForBox (box : Box) : JS.value :=
  JS.or (JS.get contentsToLabel (contents box)) (JS.VString "").

(** One entry of [results.details]. *)
Record Detail : Type := mkDetail {
  boxId : string;
  boxNumber : nat;
  userSelection : JS.value;
  correctLabel : JS.value;
  actualContents : string;
  isCorrect : bool
}.

Record Results : Type := mkResults {
  correct : nat;
  total : nat;
  details : list Detail
}.

(** The body of the [forEach] callback of [calculateResults]. *)
Definition calculateResults_step (selections : gmap string string)
    (results : Results) (entry : nat * Box) : Results :=
  let '(index, box) := entry in
  let userSelection := JS.get selections (id box) in
  let correctLabel := getCorrectLabelForBox box in
  let isCorrect := JS.strict_eq userSelection correctLabel in
  {| correct := if isCorrect then S (correct results) else correct results;
     total := total results;
     details := details results ++
       [ {| boxId := id box;
            boxNumber := index + 1;
            userSelection := userSelection;
            correctLabel := correctLabel;
            actualContents := contents box;
            isCorrect := isCorrect |} ] |}.

Definition calculateResults (st : GameState) : Results :=
  foldl (calculateResults_step (userLabelSelections st))
    {| correct := 0; total := length (boxes st); details := [] |}
    (imap pair (boxes st)).

(** [checkAnswers]: the click handler of the submit button.  It hands the
    results to [displayResults]; the embedding returns what is displayed. *)
Definition checkAnswers (st : GameState) : JS.outcome Results :=
  JS.Returned (calculateResults st).

(** The flag computed by [updateSubmitButtonState]:
    [Object.values(GameState.userLabelSelections).every(label => label !== '')];
    the submit button is disabled when it is false. *)
Definition allSelected (st : GameState) : bool :=
  forallb (λ l, negb (bool_decide (l = "")))
          (snd <$> map_to_list (userLabelSelections st)).

(** ** Puzzle generation *)

(** The two arrays that one call of [tryGenerateValidConfiguration] gets from
    [[...GAME_CONFIG.BOX_CONTENTS].sort(() => Math.random() - 0.5)] and
    [[...GAME_CONFIG.BOX_LABELS].sort(() => Math.random() - 0.5)].  With a
    comparator that answers at random the order is up to the engine; the
    random source of the embedding supplies the outcome. *)
Record Shuffles : Type := mkShuffles {
  shuffledContents : list string;
  shuffledLabels : list string
}.

(** The random source: the shuffles drawn by the n-th attempt of one call of
    [generatePuzzleConfiguration]. *)
Definition RandomSource : Type := nat → Shuffles.

(** [sort] rearranges the copy of the array it is called on. *)
Definition shuffles_ok (r : Shuffles) : Prop :=
  shuffledContents r ≡ₚ GAME_CONFIG.BOX_CONTENTS ∧
  shuffledLabels r ≡ₚ GAME_CONFIG.BOX_LABELS.

Definition random_source_ok (rs : RandomSource) : Prop :=
  ∀ n, shuffles_ok (rs n).

Fixpoint assignContentToBox (box : Box) (shuffledContents : list string)
    (usedContents : gset string) : bool * Box * gset string :=
  match shuffledContents with
  | [] => (false, box, usedContents)
  | content :: rest =>
      if bool_decide (content ∈ usedContents)
      then assignContentToBox box rest usedContents
      else (true, set_contents box content, usedContents ∪ {[content]})
  end.

Fixpoint assignLabelToBox (box : Box) (shuffledLabels : list string)
    (usedLabels : gset string) : bool * Box * gset string :=
  match shuffledLabels with
  | [] => (false, box, usedLabels)
  | label :: rest =>
      if bool_decide (label ∈ usedLabels)
      then assignLabelToBox box rest usedLabels
      else
        (* [testBox] has no id; [checkContentsMatchLabel] reads none *)
      let testBox := {| id := ""; contents := contents box; label := label |} in
        if checkContentsMatchLabel testBox
        then assignLabelToBox box rest usedLabels
        else (true, set_label box label, usedLabels ∪ {[label]})
  end.

(** The [for (const box of GameState.boxes)] loop of
    [tryGenerateValidConfiguration]; it returns at the first box that cannot
    be assigned and leaves the boxes after it as they are. *)
Fixpoint assignBoxes (bs : list Box) (r : Shuffles)
    (usedContents usedLabels : gset string) : bool * list Box :=
  match bs with
  | [] => (true, [])
  | box :: rest =>
      let '(okc, box1, usedContents1) :=
        assignContentToBox box (shuffledContents r) usedContents in
      if negb okc then (false, box1 :: rest)
      else
        let '(okl, box2, usedLabels1) :=
          assignLabelToBox box1 (shuffledLabels r) usedLabels in
        if negb okl then (false, box2 :: rest)
        else
          let '(ok, rest') := assignBoxes rest r usedContents1 usedLabels1 in
          (ok, box2 :: rest')
  end.

Definition tryGenerateValidConfiguration (r : Shuffles) (st : GameState)
    : bool * GameState :=
  let resetBoxes := (λ box, set_label (set_contents box "") "") <$> boxes st in
  let '(ok, bs) := assignBoxes resetBoxes r ∅ ∅ in
  (ok, set_boxes st bs).

(** [GameState.boxes[i].field = v]: a [TypeError] when there is no box [i]. *)
Definition updateBox (i : nat) (f : Box → Box) (bs : list Box)
    : JS.outcome (list Box) :=
  match bs !! i with
  | Some box => JS.Returned (<[i := f box]> bs)
  | None => JS.Thrown "TypeError"
  end.

Definition setFallbackConfiguration (st : GameState) : JS.outcome GameState :=
  JS.bind (updateBox 0 (λ b, set_contents b "white-white") (boxes st)) (λ bs,
  JS.bind (updateBox 0 (λ b, set_label b "Red and Red") bs) (λ bs,
  JS.bind (updateBox 1 (λ b, set_contents b "red-red") bs) (λ bs,
  JS.bind (updateBox 1 (λ b, set_label b "Red and White") bs) (λ bs,
  JS.bind (updateBox 2 (λ b, set_contents b "red-white") bs) (λ bs,
  JS.bind (updateBox 2 (λ b, set_label b "White and White") bs) (λ bs,
  JS.Returned (set_boxes st bs))))))).

(** How a call of [generatePuzzleConfiguration] left its loop. *)
Inductive Exit : Type := Success | Fallback.

(** What a call of [generatePuzzleConfiguration] leaves behind: the value of
    its local variable [attempts], the way it left the loop, the state, and a
    ghost counter [trials] of the calls of [tryGenerateValidConfiguration]
    it has made. *)
Record Run : Type := mkRun {
  attempts : nat;
  trials : nat;
  exit : Exit;
  final : JS.outcome GameState
}.

(** The [while (attempts < maxAttempts)] loop followed by the fallback; every
    evaluation of the loop condition takes one unit of [fuel]. *)
Fixpoint generateLoop (fuel : nat) (maxAttempts attempts trials : nat)
    (rs : RandomSource) (st : GameState) : option Run :=
  match fuel with
  | 0 => None
  | S fuel' =>
      if (attempts <? maxAttempts)%nat then
        let '(ok, st') := tryGenerateValidConfiguration (rs attempts) st in
        if ok
        then Some {| attempts := attempts; trials := S trials;
                     exit := Success; final := JS.Returned st' |}
        else generateLoop fuel' maxAttempts (S attempts) (S trials) rs st'
      else
        Some {| attempts := attempts; trials := trials; exit := Fallback;
                final := setFallbackConfiguration st |}
  end.

Definition generatePuzzleConfiguration_fuel (fuel : nat) (rs : RandomSource)
    (st : GameState) : option Run :=
  let attempts := 0 in
  let maxAttempts := GAME_CONFIG.MAX_ATTEMPTS in
  generateLoop fuel maxAttempts attempts 0 rs st.

(** The loop condition is evaluated at most [MAX_ATTEMPTS + 1] times. *)
Definition generatePuzzleConfiguration (rs : RandomSource) (st : GameState)
    : option Run :=
  generatePuzzleConfiguration_fuel (S GAME_CONFIG.MAX_ATTEMPTS) rs st.

(** ** The invariants of a puzzle configuration *)

(** Distinct contents, distinct labels, every box mislabeled. *)
Record valid_configuration (bs : list Box) : Prop := {
  valid_contents : contents <$> bs ≡ₚ GAME_CONFIG.BOX_CONTENTS;
  valid_labels : label <$> bs ≡ₚ GAME_CONFIG.BOX_LABELS;
  valid_mislabeled :
    Forall (λ box, JS.VString (label box) ≠ getCorrectLabelForBox box) bs
}.

(** The boxes of the state are the three boxes of [BOX_IDS]. *)
Definition well_formed (st : GameState) : Prop := id <$> boxes st = BOX_IDS.

(** The boxes [setFallbackConfiguration] leaves in a well-formed state. *)
Definition fallbackBoxes : list Box :=
  [ mkBox "matchbox-1" "white-white" "Red and Red";
    mkBox "matchbox-2" "red-red" "Red and White";
    mkBox "matchbox-3" "red-white" "White and White" ].

(** ** Sample runs *)

Definition identityShuffles : Shuffles :=
  {| shuffledContents := GAME_CONFIG.BOX_CONTENTS;
     shuffledLabels := GAME_CONFIG.BOX_LABELS |}.

(** Labels in the order RR, WW, RW: the third box is left with its own label. *)
Definition deadEndShuffles : Shuffles :=
  {| shuffledContents := GAME_CONFIG.BOX_CONTENTS;
     shuffledLabels := ["Red and Red"; "White and White"; "Red and White"] |}.

(** Labels in the order RW, WW, RR. *)
Definition goodShuffles : Shuffles :=
  {| shuffledContents := ["red-red"; "white-white"; "red-white"];
     shuffledLabels := ["Red and White"; "White and White"; "Red and Red"] |}.

Definition fallbackState : GameState := set_boxes initialGameState fallbackBoxes.

(** The fallback puzzle with every box given its true label. *)
Definition solvedState : GameState :=
  recordSelection "matchbox-3" "Red and White"
    (recordSelection "matchbox-2" "Red and Red"
      (recordSelection "matchbox-1" "White and White" fallbackState)).

(** The fallback puzzle with the true labels of the first two boxes swapped. *)
Definition swappedState : GameState :=
  recordSelection "matchbox-3" "Red and White"
    (recordSelection "matchbox-2" "White and White"
      (recordSelection "matchbox-1" "Red and Red" fallbackState)).

(** The fallback puzzle with the third selection still empty. *)
Definition incompleteState : GameState :=
  recordSelection "matchbox-2" "Red and Red"
    (recordSelection "matchbox-1" "White and White" fallbackState).

(** A random source whose attempts all fail, and one whose fourth succeeds. *)
Definition failingSource : RandomSource := λ _, deadEndShuffles.
Definition fourthTimeLucky : RandomSource :=
  λ n, if (n <? 3)%nat then deadEndShuffles else goodShuffles.

(** ** Vocabulary of the generator's properties *)

(** The label scan of [assignLabelToBox] told in the evaluator's terms: the
    box gets the first label of the shuffle that is not yet used and differs
    from the label [getCorrectLabelForBox] derives for it. *)
Fixpoint assignLabelToBox_by_lookup (box : Box) (shuffledLabels : list string)
    (usedLabels : gset string) : bool * Box * gset string :=
  match shuffledLabels with
  | [] => (false, box, usedLabels)
  | label :: rest =>
      if bool_decide (label ∈ usedLabels)
      then assignLabelToBox_by_lookup box rest usedLabels
      else if bool_decide (JS.VString label = getCorrectLabelForBox box)
      then assignLabelToBox_by_lookup box rest usedLabels
      else (true, set_label box label, usedLabels ∪ {[label]})
  end.

(** What a successful pass of [assignBoxes] over the boxes [bs] has assigned,
    given the contents and labels already used when it started. *)
Record assigned (r : Shuffles) (usedContents usedLabels : gset string)
    (bs bs' : list Box) : Prop := {
  assigned_ids : id <$> bs' = id <$> bs;
  assigned_contents_NoDup : NoDup (contents <$> bs');
  assigned_contents :
    Forall (λ c, c ∈ shuffledContents r ∧ c ∉ usedContents) (contents <$> bs');
  assigned_labels_NoDup : NoDup (label <$> bs');
  assigned_labels :
    Forall (λ l, l ∈ shuffledLabels r ∧ l ∉ usedLabels) (label <$> bs');
  assigned_mismatch : Forall (λ box, checkContentsMatchLabel box = false) bs'
}.

(** ** Vocabulary of the evaluator's properties *)

(** The per-box comparison of [calculateResults]: the guess recorded for the
    box against the label derived from its contents. *)
Definition guessIsCorrect (selections : gmap string string) (box : Box) : bool :=
  JS.strict_eq (JS.get selections (id box)) (getCorrectLabelForBox box).

(** The number of boxes whose guess equals the derived label. *)
Definition matchCount (selections : gmap string string) (bs : list Box) : nat :=
  length (filter (λ box, guessIsCorrect selections box = true) bs).

(** The entry [calculateResults] pushes for the box at [index]. *)
Definition detailOf (selections : gmap string string) (index : nat) (box : Box)
    : Detail :=
  {| boxId := id box;
     boxNumber := index + 1;
     userSelection := JS.get selections (id box);
     correctLabel := getCorrectLabelForBox box;
     actualContents := contents box;
     isCorrect := guessIsCorrect selections box |}.

(** A GuessSet is incomplete when the selection of some box is still [''],
    the value [GameState] starts every selection with. *)
Definition incomplete (st : GameState) : Prop :=
  ∃ box, box ∈ boxes st ∧ userLabelSelections st !! id box = Some "".

(** A call signals invalid input when it throws. *)
Definition signals_invalid_input {A} (o : JS.outcome A) : Prop :=
  ∃ error, o = JS.Thrown error.

(** The transposition of the slots [i] and [j]. *)
Definition transpose (i j k : nat) : nat :=
  if bool_decide (k = i) then j else if bool_decide (k = j) then i else k.

(** The guesses are the true labels with those of slots [i] and [j] swapped:
    the guess for the box in slot [k] is the derived label of the box in slot
    [transpose i j k]. *)
Definition swapped_guesses (i j : nat) (st : GameState) : Prop :=
  ∀ k box box',
    boxes st !! k = Some box →
    boxes st !! transpose i j k = Some box' →
    JS.get (userLabelSelections st) (id box) = getCorrectLabelForBox box'.

(** ** The interaction layer *)

(** The state change of [selectMatchbox]: a click on a check button after a
    box has been checked is ignored.  [selectedBox] holds the id of the box
    the script keeps a reference to. *)
Definition selectMatchbox (box : Box) (st : GameState) : GameState :=
  if hasCheckedBox st then st
  else {| boxes := boxes st; selectedBox := Some (id box);
          hasCheckedBox := true;
          userLabelSelections := userLabelSelections st |}.

(** [color.charAt(0).toUpperCase() + color.slice(1)], the callback of
    [formatContents] and the text of the marble of [getMarbleVisualization]. *)
Definition capitalize (color : string) : string :=
  String.append (JS.toUpperCase (JS.charAt 0 color)) (JS.slice 1 color).

Definition formatContents (contents : string) : string :=
  JS.join " and " (capitalize <$> JS.split "-"%char contents).

(** The double quote of the markup. *)
Definition dquote : string := String (ascii_of_nat 34) EmptyString.

(** The markup [getMarbleVisualization] builds for a marble. *)
Definition marbleDiv (marble : string) : string :=
  String.concat ""
    [ "<div class="; dquote; "marble "; marble; dquote; ">";
      capitalize marble; "</div>" ].

(** [getMarbleVisualization]; [randomIndex] is the value of
    [Math.floor(Math.random() * marbles.length)].  Past the end of [marbles]
    the marble is [undefined] and [marble.charAt] throws. *)
Definition getMarbleVisualization (contents : string) (randomIndex : nat)
    : JS.outcome string :=
  let marbles := JS.split "-"%char contents in
  match marbles !! randomIndex with
  | Some marble => JS.Returned (marbleDiv marble)
  | None => JS.Thrown "TypeError"
  end.

(** [Object.values(GameState.userLabelSelections).filter(value => value !== '')] *)
Definition selectedValues (st : GameState) : list string :=
  List.filter (λ value, negb (bool_decide (value = "")))
              (snd <$> map_to_list (userLabelSelections st)).

(** The values of the options [updateDropdownOptions] puts in the selector
    of a box: the placeholder, then the labels no other selector holds. *)
Definition dropdownOptions (st : GameState) (box : Box) : list string :=
  let currentValue := JS.get (userLabelSelections st) (id box) in
  "" :: List.filter
          (λ label, negb (bool_decide (label ∈ selectedValues st))
                    || JS.strict_eq (JS.VString label) currentValue)
          GAME_CONFIG.BOX_LABELS.

(** [updateDropdownOptions]: the options of the selectors, box by box. *)
Definition updateDropdownOptions (st : GameState) : list (list string) :=
  dropdownOptions st <$> boxes st.

(** A change of a label selector: the player picks one of the options the
    selector of a box offers, and the listener records it. *)
Inductive selects (st : GameState) : GameState → Prop :=
| selects_option (box : Box) (value : string) :
    box ∈ boxes st →
    value ∈ dropdownOptions st box →
    selects st (recordSelection (id box) value st).

(** The head of [displayResults]. *)
Definition isPerfect (results : Results) : bool :=
  bool_decide (correct results = total results).

Definition resultClass (results : Results) : string :=
  if isPerfect results then "success" else "partial".

Definition statusClass (detail : Detail) : string :=
  if isCorrect detail then "correct" else "incorrect".

(** The state changes of [initializeGame], [resetGame] and [resetPuzzle]. *)
Definition initializeGame (rs : RandomSource) (st : GameState) : option Run :=
  generatePuzzleConfiguration rs st.

Definition resetGame (rs : RandomSource) (st : GameState) : option Run :=
  initializeGame rs (reset st).

Definition resetPuzzle (rs : RandomSource) (st : GameState) : option Run :=
  generatePuzzleConfiguration rs (reset st).

(** ** Vocabulary of the interaction layer's properties *)

(** The guesses of the boxes, in the order of the boxes. *)
Definition guesses (st : GameState) : list JS.value :=
  (λ box, JS.get (userLabelSelections st) (id box)) <$> boxes st.

(** The selections are those of the three boxes, each is empty or a label,
    and no label is held by two boxes. *)
Record selections_ok (st : GameState) : Prop := {
  selections_keys :
    ∀ i, is_Some (userLabelSelections st !! i) ↔ i ∈ BOX_IDS;
  selections_values :
    ∀ i v, userLabelSelections st !! i = Some v →
           v = "" ∨ v ∈ GAME_CONFIG.BOX_LABELS;
  selections_distinct :
    ∀ i j v, userLabelSelections st !! i = Some v →
             userLabelSelections st !! j = Some v → v ≠ "" → i = j
}.

(** A character a colour may hold for [formatContents] to be undone by the
    normalisation of [checkContentsMatchLabel]: an ASCII character (code
    below 128) that is no capital letter and no hyphen. *)
Definition plain_char (c : ascii) : bool :=
  let n := nat_of_ascii c in
  Nat.ltb n 128 && negb (Nat.leb 65 n && Nat.leb n 90) && negb (Nat.eqb n 45).

Fixpoint plain (s : string) : bool :=
  match s with
  | EmptyString => true
  | String c s' => plain_char c && plain s'
  end.

Fixpoint no_space (s : string) : bool :=
  match s with
  | EmptyString => true
  | String c s' => negb (Nat.eqb (nat_of_ascii c) 32) && no_space s'
  end.

(** All the pairs of shuffles a random source can hand to one attempt. *)
Definition allShuffles : list Shuffles :=
  c ← permutations GAME_CONFIG.BOX_CONTENTS;
  l ← permutations GAME_CONFIG.BOX_LABELS;
  [ {| shuffledContents := c; shuffledLabels := l |} ].

(** The configurations of the three boxes that satisfy the invariants. *)
Definition validConfigurations : list (list Box) :=
  c ← permutations GAME_CONFIG.BOX_CONTENTS;
  l ← permutations GAME_CONFIG.BOX_LABELS;
  let bs := zip_with (λ i cl, mkBox i cl.1 cl.2) BOX_IDS (zip c l) in
  if bool_decide
       (Forall (λ box, JS.VString (label box) ≠ getCorrectLabelForBox box) bs)
  then [bs] else [].

#[global] Instance GameState_eq_dec : EqDecision GameState.
Proof. solve_decision. Defined.

(** The pairs of shuffles with which an attempt produces the boxes [bs]. *)
Definition producedBy (bs : list Box) : list Shuffles :=
  List.filter
    (λ r, bool_decide
            (tryGenerateValidConfiguration r initialGameState
             = (true, set_boxes initialGameState bs)))
    allShuffles.

(** A second valid configuration, with the labels of [fallbackBoxes]. *)
Definition otherBoxes : list Box :=
  [ mkBox "matchbox-1" "red-white" "Red and Red";
    mkBox "matchbox-2" "white-white" "Red and White";
    mkBox "matchbox-3" "red-red" "White and White" ].

(** The last label of the label shuffle describes the last contents of the
    contents shuffle. *)
Definition dead_end (r : Shuffles) : bool :=
  checkContentsMatchLabel
    {| id := "";
       contents := List.last (shuffledContents r) "";
       label := List.last (shuffledLabels r) "" |}.

(** * Properties *)

(** Closed decidable goals are settled by evaluating their decision. *)
Ltac by_evaluation := apply (bool_decide_unpack _); vm_compute; exact I.

(** ** Sample evaluations *)

Example identityShuffles_dead_end :
  (tryGenerateValidConfiguration identityShuffles initialGameState).1 = false.
Proof. vm_compute. reflexivity. Qed.

Example goodShuffles_boxes :
  boxes (tryGenerateValidConfiguration goodShuffles initialGameState).2
  = [ mkBox "matchbox-1" "red-red" "Red and White";
      mkBox "matchbox-2" "white-white" "Red and Red";
      mkBox "matchbox-3" "red-white" "White and White" ].
Proof. vm_compute. reflexivity. Qed.

Example fourthTimeLucky_run :
  (λ run, (attempts run, trials run, exit run))
    <$> generatePuzzleConfiguration fourthTimeLucky initialGameState
  = Some (3, 4, Success).
Proof. vm_compute. reflexivity. Qed.

Example failingSource_run :
  (λ run, (attempts run, trials run, exit run))
    <$> generatePuzzleConfiguration failingSource initialGameState
  = Some (50, 50, Fallback).
Proof. vm_compute. reflexivity. Qed.

Example normalizedLabel_red_and_white :
  JS.replace " and " "-" (JS.toLowerCase "Red and White") = "red-white".
Proof. reflexivity. Qed.

Example swappedState_score : correct (calculateResults swappedState) = 1.
Proof. vm_compute. reflexivity. Qed.

(** ** The evaluator's lookup *)

Lemma BOX_CONTENTS_cases (c : string) :
  c ∈ GAME_CONFIG.BOX_CONTENTS →
  c = "white-white" ∨ c = "red-red" ∨ c = "red-white".
Proof.
  unfold GAME_CONFIG.BOX_CONTENTS.
  rewrite !elem_of_cons, elem_of_nil. tauto.
Qed.

Lemma BOX_LABELS_cases (l : string) :
  l ∈ GAME_CONFIG.BOX_LABELS →
  l = "White and White" ∨ l = "Red and Red" ∨ l = "Red and White".
Proof.
  unfold GAME_CONFIG.BOX_LABELS.
  rewrite !elem_of_cons, elem_of_nil. tauto.
Qed.

Lemma getCorrectLabelForBox_contents (b1 b2 : Box) :
  contents b1 = contents b2 →
  getCorrectLabelForBox b1 = getCorrectLabelForBox b2.
Proof. unfold getCorrectLabelForBox. by intros ->. Qed.

Lemma checkContentsMatchLabel_fields (b1 b2 : Box) :
  contents b1 = contents b2 → label b1 = label b2 →
  checkContentsMatchLabel b1 = checkContentsMatchLabel b2.
Proof. unfold checkContentsMatchLabel. by intros -> ->. Qed.

Lemma match_agrees_with_lookup (box : Box) :
  contents box ∈ GAME_CONFIG.BOX_CONTENTS →
  label box ∈ GAME_CONFIG.BOX_LABELS →
  checkContentsMatchLabel box = true ↔
  JS.VString (label box) = getCorrectLabelForBox box.
Proof.
  destruct box as [i c l]; simpl. intros Hc Hl.
  apply BOX_CONTENTS_cases in Hc. apply BOX_LABELS_cases in Hl.
  destruct Hc as [-> | [-> | ->]], Hl as [-> | [-> | ->]];
    vm_compute; split; congruence.
Qed.

(** ** One attempt of the generator *)

Lemma assignContentToBox_true box sh used box' used' :
  assignContentToBox box sh used = (true, box', used') →
  ∃ c, c ∈ sh ∧ (c ∉ used) ∧ box' = set_contents box c ∧ used' = used ∪ {[c]}.
Proof.
  induction sh as [|content rest IH]; simpl; [done|].
  case_bool_decide as Hin.
  - intros (c & ? & ? & ? & ?)%IH. exists c. by rewrite elem_of_cons; auto.
  - intros [= <- <-]. exists content. by rewrite elem_of_cons; auto.
Qed.

Lemma assignContentToBox_false box sh used box' used' :
  assignContentToBox box sh used = (false, box', used') → box' = box.
Proof.
  induction sh as [|content rest IH]; simpl; [by intros [= <-]|].
  case_bool_decide; [done|]. by intros [=].
Qed.

Lemma assignLabelToBox_true box sh used box' used' :
  assignLabelToBox box sh used = (true, box', used') →
  ∃ l, l ∈ sh ∧ (l ∉ used) ∧ box' = set_label box l ∧ used' = used ∪ {[l]} ∧
       checkContentsMatchLabel box' = false.
Proof.
  induction sh as [|l rest IH]; simpl; [done|].
  assert (∀ P : string → Prop, (∃ x, x ∈ rest ∧ P x) → ∃ x, x ∈ l :: rest ∧ P x)
    as Hweaken.
  { intros P (x & ? & ?). exists x. by rewrite elem_of_cons; auto. }
  case_bool_decide as Hin; [by intros ?%IH; apply Hweaken|].
  destruct (checkContentsMatchLabel (mkBox "" (contents box) l)) eqn:Hmatch;
    [by intros ?%IH; apply Hweaken|].
  intros [= <- <-]. exists l. rewrite elem_of_cons.
  split_and!; auto.
Qed.

Lemma assignLabelToBox_false box sh used box' used' :
  assignLabelToBox box sh used = (false, box', used') → box' = box.
Proof.
  induction sh as [|l rest IH]; simpl; [by intros [= <-]|].
  case_bool_decide; [done|].
  destruct (checkContentsMatchLabel (mkBox "" (contents box) l)); [done|].
  by intros [=].
Qed.

Lemma assignBoxes_ids bs r uc ul ok bs' :
  assignBoxes bs r uc ul = (ok, bs') → id <$> bs' = id <$> bs.
Proof.
  revert uc ul ok bs'. induction bs as [|box rest IH]; simpl; intros uc ul ok bs'.
  { by intros [= <- <-]. }
  destruct (assignContentToBox _ _ _) as [[[] box1] uc1] eqn:Hc; simpl.
  - apply assignContentToBox_true in Hc as (c & _ & _ & -> & _).
    destruct (assignLabelToBox _ _ _) as [[[] box2] ul1] eqn:Hl; simpl.
    + apply assignLabelToBox_true in Hl as (l & _ & _ & -> & _).
      destruct (assignBoxes rest r uc1 ul1) as [ok' rest'] eqn:Hrest.
      intros [= <- <-]. simpl. f_equal. by eapply IH.
    + apply assignLabelToBox_false in Hl as ->. by intros [= <- <-].
  - apply assignContentToBox_false in Hc as ->. by intros [= <- <-].
Qed.

Lemma assignBoxes_true bs r uc ul bs' :
  assignBoxes bs r uc ul = (true, bs') → assigned r uc ul bs bs'.
Proof.
  revert uc ul bs'. induction bs as [|box rest IH]; simpl; intros uc ul bs'.
  { intros [= <-]. split; simpl; by constructor. }
  destruct (assignContentToBox _ _ _) as [[[] box1] uc1] eqn:Hc; simpl; [|done].
  apply assignContentToBox_true in Hc as (c & Hc & Hcu & -> & ->).
  destruct (assignLabelToBox _ _ _) as [[[] box2] ul1] eqn:Hl; simpl; [|done].
  apply assignLabelToBox_true in Hl as (l & Hl & Hlu & -> & -> & Hmis).
  destruct (assignBoxes rest _ _) as [ok' rest'] eqn:Hrest.
  intros [= -> <-]. apply IH in Hrest as [Hid Hcn Hcs Hln Hls Hm].
  split; simpl.
  - by f_equal.
  - constructor; [|done]. intros Hin.
    rewrite Forall_forall in Hcs. apply Hcs in Hin as [_ Hfresh].
    apply Hfresh, elem_of_union_r. by apply elem_of_singleton.
  - constructor; [done|]. eapply Forall_impl; [done|].
    intros x [? Hfresh]. split; [done|]. intros ?. by apply Hfresh, elem_of_union_l.
  - constructor; [|done]. intros Hin.
    rewrite Forall_forall in Hls. apply Hls in Hin as [_ Hfresh].
    apply Hfresh, elem_of_union_r. by apply elem_of_singleton.
  - constructor; [done|]. eapply Forall_impl; [done|].
    intros x [? Hfresh]. split; [done|]. intros ?. by apply Hfresh, elem_of_union_l.
  - by constructor.
Qed.

Lemma NoDup_subset_Permutation (l k : list string) :
  NoDup l → (∀ x, x ∈ l → x ∈ k) → length l = length k → l ≡ₚ k.
Proof.
  intros Hnd Hsub Hlen.
  apply submseteq_length_Permutation; [by apply NoDup_submseteq|lia].
Qed.

Lemma well_formed_length st : well_formed st → length (boxes st) = 3.
Proof.
  unfold well_formed. intros H.
  rewrite <- (length_fmap id (boxes st)), H. reflexivity.
Qed.

Lemma tryGenerateValidConfiguration_well_formed r st ok st' :
  tryGenerateValidConfiguration r st = (ok, st') →
  well_formed st → well_formed st'.
Proof.
  unfold tryGenerateValidConfiguration, well_formed.
  destruct (assignBoxes _ _ _ _) as [ok' bs] eqn:Hbs.
  intros [= <- <-] Hwf. simpl.
  apply assignBoxes_ids in Hbs. rewrite Hbs, <- Hwf, <- list_fmap_compose.
  by apply list_fmap_ext.
Qed.

Lemma tryGenerateValidConfiguration_valid r st st' :
  tryGenerateValidConfiguration r st = (true, st') →
  well_formed st → shuffles_ok r →
  valid_configuration (boxes st').
Proof.
  intros Htry Hwf [Hsc Hsl].
  pose proof (tryGenerateValidConfiguration_well_formed _ _ _ _ Htry Hwf) as Hwf'.
  apply well_formed_length in Hwf'.
  revert Htry. unfold tryGenerateValidConfiguration.
  destruct (assignBoxes _ _ _ _) as [ok' bs] eqn:Hbs.
  intros [= -> <-]. simpl in *.
  apply assignBoxes_true in Hbs as [_ Hcn Hcs Hln Hls Hm].
  assert (contents <$> bs ≡ₚ GAME_CONFIG.BOX_CONTENTS) as Hcontents.
  { rewrite <- Hsc. apply NoDup_subset_Permutation; [done| |].
    - intros x Hx. rewrite Forall_forall in Hcs. by apply Hcs.
    - by rewrite length_fmap, Hwf', Hsc. }
  assert (label <$> bs ≡ₚ GAME_CONFIG.BOX_LABELS) as Hlabels.
  { rewrite <- Hsl. apply NoDup_subset_Permutation; [done| |].
    - intros x Hx. rewrite Forall_forall in Hls. by apply Hls.
    - by rewrite length_fmap, Hwf', Hsl. }
  split; [done..|].
  rewrite Forall_forall in Hm |- *. intros box Hbox Heq.
  apply match_agrees_with_lookup in Heq.
  - specialize (Hm box Hbox). congruence.
  - rewrite <- Hcontents. by apply list_elem_of_fmap_2.
  - rewrite <- Hlabels. by apply list_elem_of_fmap_2.
Qed.

(** ** The fallback *)

Lemma well_formed_inv st :
  well_formed st →
  ∃ c1 l1 c2 l2 c3 l3,
    boxes st = [ mkBox "matchbox-1" c1 l1; mkBox "matchbox-2" c2 l2;
                 mkBox "matchbox-3" c3 l3 ].
Proof.
  unfold well_formed, BOX_IDS.
  destruct (boxes st) as [|[i1 c1 l1] [|[i2 c2 l2] [|[i3 c3 l3] [|? ?]]]];
    simpl; intros [=]; subst.
  by exists c1, l1, c2, l2, c3, l3.
Qed.

Lemma setFallbackConfiguration_returns st :
  well_formed st →
  setFallbackConfiguration st = JS.Returned (set_boxes st fallbackBoxes).
Proof.
  intros (c1 & l1 & c2 & l2 & c3 & l3 & Hbs)%well_formed_inv.
  unfold setFallbackConfiguration. rewrite Hbs. reflexivity.
Qed.

Lemma fallbackBoxes_valid : valid_configuration fallbackBoxes.
Proof.
  split.
  - reflexivity.
  - by_evaluation.
  - repeat constructor; vm_compute; congruence.
Qed.

Lemma fallbackBoxes_well_formed st : well_formed (set_boxes st fallbackBoxes).
Proof. reflexivity. Qed.

(** ** The retry loop *)

Lemma generateLoop_fuel_mono fuel fuel' maxAttempts a t rs st run :
  generateLoop fuel maxAttempts a t rs st = Some run →
  fuel ≤ fuel' →
  generateLoop fuel' maxAttempts a t rs st = Some run.
Proof.
  revert fuel' a t st. induction fuel as [|fuel IH]; intros fuel' a t st; [done|].
  destruct fuel' as [|fuel']; [lia|]. simpl.
  destruct (a <? maxAttempts)%nat; [|done].
  destruct (tryGenerateValidConfiguration _ _) as [[] st']; [done|].
  intros Hrun Hle. apply IH; [done|lia].
Qed.

(** Enough fuel: the loop leaves after at most [maxAttempts - attempts]
    further trials. *)
Lemma generateLoop_terminates fuel maxAttempts a t rs st :
  a ≤ maxAttempts → maxAttempts - a < fuel →
  ∃ run,
    generateLoop fuel maxAttempts a t rs st = Some run ∧
    a ≤ attempts run ≤ maxAttempts ∧
    match exit run with
    | Success => attempts run < maxAttempts ∧
                 trials run = t + (attempts run - a) + 1
    | Fallback => attempts run = maxAttempts ∧
                  trials run = t + (maxAttempts - a)
    end.
Proof.
  revert a t st. induction fuel as [|fuel IH]; intros a t st Ha Hfuel; [lia|].
  simpl. destruct (a <? maxAttempts)%nat eqn:Hlt.
  - apply Nat.ltb_lt in Hlt.
    destruct (tryGenerateValidConfiguration _ _) as [[] st'].
    + eexists. split; [done|]. simpl. lia.
    + destruct (IH (S a) (S t) st') as (run & -> & ? & Hexit); [lia..|].
      exists run. split; [done|]. split; [lia|].
      destruct (exit run); lia.
  - apply Nat.ltb_ge in Hlt.
    eexists. split; [done|]. simpl. lia.
Qed.

Lemma generateLoop_returns fuel maxAttempts a t rs st run :
  generateLoop fuel maxAttempts a t rs st = Some run →
  well_formed st →
  ∃ st', final run = JS.Returned st' ∧ well_formed st' ∧
         (random_source_ok rs → valid_configuration (boxes st')) ∧
         match exit run with
         | Success => ∃ s, well_formed s ∧
             tryGenerateValidConfiguration (rs (attempts run)) s = (true, st')
         | Fallback => boxes st' = fallbackBoxes
         end.
Proof.
  revert a t st. induction fuel as [|fuel IH]; intros a t st; [done|]. simpl.
  destruct (a <? maxAttempts)%nat.
  - destruct (tryGenerateValidConfiguration _ _) as [[] st'] eqn:Htry.
    + intros [= <-] Hwf. exists st'. simpl.
      split_and!; [done|by eapply tryGenerateValidConfiguration_well_formed| |by eauto].
      intros Hrs. by eapply tryGenerateValidConfiguration_valid.
    + intros Hrun Hwf. eapply IH; [done|].
      by eapply tryGenerateValidConfiguration_well_formed.
  - intros [= <-] Hwf. exists (set_boxes st fallbackBoxes). simpl.
    split_and!; [by apply setFallbackConfiguration_returns|done| |done].
    intros _. apply fallbackBoxes_valid.
Qed.

(** When every remaining attempt fails the loop leaves through the fallback. *)
Lemma generateLoop_all_fail fuel maxAttempts a t rs st run :
  generateLoop fuel maxAttempts a t rs st = Some run →
  well_formed st →
  (∀ n s, a ≤ n < maxAttempts → well_formed s →
          (tryGenerateValidConfiguration (rs n) s).1 = false) →
  exit run = Fallback.
Proof.
  revert a t st. induction fuel as [|fuel IH]; intros a t st; [done|]. simpl.
  destruct (a <? maxAttempts)%nat eqn:Hlt.
  - apply Nat.ltb_lt in Hlt. intros Hrun Hwf Hfail.
    pose proof (Hfail a st ltac:(lia) Hwf) as Hfst.
    destruct (tryGenerateValidConfiguration _ _) as [ok st'] eqn:Htry.
    simpl in Hfst. subst ok.
    eapply IH; [done| |].
    + by eapply tryGenerateValidConfiguration_well_formed.
    + intros n s ? ?. apply Hfail; [lia|done].
  - by intros [= <-].
Qed.

(** ** The evaluator *)

Lemma calculateResults_fold selections (f : nat → nat) bs acc :
  foldl (calculateResults_step selections) acc (imap (λ i box, (f i, box)) bs)
  = {| correct := correct acc + matchCount selections bs;
       total := total acc;
       details := details acc ++ imap (λ i, detailOf selections (f i)) bs |}.
Proof.
  revert f acc. induction bs as [|box rest IH]; intros f acc.
  { destruct acc. simpl. f_equal; [unfold matchCount; simpl; lia|].
    by rewrite app_nil_r. }
  rewrite !imap_cons. simpl foldl.
  rewrite (IH (f ∘ S)). simpl. f_equal.
  - unfold matchCount. rewrite filter_cons. fold (guessIsCorrect selections box).
    case_decide as Hbox; rewrite ?Hbox; simpl; [lia|].
    apply not_true_is_false in Hbox. rewrite Hbox. lia.
  - by rewrite <- app_assoc.
Qed.

Lemma calculateResults_unfold st :
  calculateResults st
  = {| correct := matchCount (userLabelSelections st) (boxes st);
       total := length (boxes st);
       details := imap (detailOf (userLabelSelections st)) (boxes st) |}.
Proof.
  unfold calculateResults.
  exact (calculateResults_fold (userLabelSelections st) (λ i, i) (boxes st) _).
Qed.

Lemma matchCount_all selections bs :
  Forall (λ box, guessIsCorrect selections box = true) bs →
  matchCount selections bs = length bs.
Proof.
  unfold matchCount. induction 1 as [|box rest Hbox _ IH]; [done|].
  rewrite filter_cons, decide_True by done. simpl. by rewrite IH.
Qed.

Lemma matchCount_miss selections bs box :
  box ∈ bs → guessIsCorrect selections box = false →
  matchCount selections bs < length bs.
Proof.
  intros Hin Hmiss. unfold matchCount.
  apply (length_filter_lt _ _ box); [done|]. by rewrite Hmiss.
Qed.

Lemma contents_cases c1 c2 c3 :
  [c1; c2; c3] ≡ₚ GAME_CONFIG.BOX_CONTENTS →
  [c1; c2; c3] ∈ permutations GAME_CONFIG.BOX_CONTENTS.
Proof. intros H. by apply permutations_Permutation. Qed.

Lemma calculateResults_step_fields selections acc k b b' :
  id b = id b' → contents b = contents b' →
  calculateResults_step selections acc (k, b)
  = calculateResults_step selections acc (k, b').
Proof.
  intros Hid Hc. unfold calculateResults_step.
  by rewrite Hid, Hc, (getCorrectLabelForBox_contents b b' Hc).
Qed.

Lemma calculateResults_fold_fields selections (f : nat → nat) bs bs' acc :
  id <$> bs' = id <$> bs → contents <$> bs' = contents <$> bs →
  foldl (calculateResults_step selections) acc (imap (λ i box, (f i, box)) bs')
  = foldl (calculateResults_step selections) acc (imap (λ i box, (f i, box)) bs).
Proof.
  revert f bs' acc. induction bs as [|b rest IH]; intros f [|b' rest'] acc;
    try done.
  intros [= Hid Hids] [= Hc Hcs]. rewrite !imap_cons. cbn [foldl].
  rewrite (calculateResults_step_fields _ _ _ b' b Hid Hc).
  by apply (IH (f ∘ S)).
Qed.

Lemma allSelected_false st i :
  userLabelSelections st !! i = Some "" → allSelected st = false.
Proof.
  intros Hi. unfold allSelected.
  destruct (forallb _ _) eqn:Hall; [|done].
  apply Is_true_true, forallb_True in Hall. rewrite Forall_forall in Hall.
  specialize (Hall ""). simpl in Hall. exfalso. apply Hall.
  apply list_elem_of_fmap. exists (i, ""). split; [done|].
  by apply elem_of_map_to_list.
Qed.

Lemma initialGameState_well_formed : well_formed initialGameState.
Proof. reflexivity. Qed.

Lemma reset_well_formed st : well_formed st → well_formed (reset st).
Proof.
  unfold well_formed. intros <-. simpl.
  rewrite <- list_fmap_compose. by apply list_fmap_ext.
Qed.

Lemma recordSelection_well_formed i v st :
  well_formed st → well_formed (recordSelection i v st).
Proof. done. Qed.

Lemma getCorrectLabelForBox_default box :
  contents box ∉ GAME_CONFIG.BOX_CONTENTS →
  JS.object_prototype (contents box) = JS.VUndefined →
  getCorrectLabelForBox box = JS.VString "".
Proof.
  unfold GAME_CONFIG.BOX_CONTENTS.
  rewrite !not_elem_of_cons. intros (? & ? & ? & _) Hproto.
  unfold getCorrectLabelForBox, JS.get, contentsToLabel.
  rewrite !lookup_insert_ne, lookup_empty, Hproto by done. reflexivity.
Qed.

(** * The checked properties *)

(** C4: [getCorrectLabelForBox] is a total function of the contents: it maps
    'white-white' to 'White and White', 'red-red' to 'Red and Red' and
    'red-white' to 'Red and White'; two calls on boxes with the same contents
    give the same label; and on the three kinds of contents it is one-to-one
    and onto the three labels. *)
Theorem getCorrectLabelForBox_bijection :
  (∀ i l, getCorrectLabelForBox (mkBox i "white-white" l)
          = JS.VString "White and White") ∧
  (∀ i l, getCorrectLabelForBox (mkBox i "red-red" l)
          = JS.VString "Red and Red") ∧
  (∀ i l, getCorrectLabelForBox (mkBox i "red-white" l)
          = JS.VString "Red and White") ∧
  (∀ b1 b2, contents b1 = contents b2 →
            getCorrectLabelForBox b1 = getCorrectLabelForBox b2) ∧
  (∀ b1 b2, contents b1 ∈ GAME_CONFIG.BOX_CONTENTS →
            contents b2 ∈ GAME_CONFIG.BOX_CONTENTS →
            getCorrectLabelForBox b1 = getCorrectLabelForBox b2 →
            contents b1 = contents b2) ∧
  (∀ box, contents box ∈ GAME_CONFIG.BOX_CONTENTS →
          ∃ l, l ∈ GAME_CONFIG.BOX_LABELS ∧
               getCorrectLabelForBox box = JS.VString l) ∧
  (∀ l, l ∈ GAME_CONFIG.BOX_LABELS →
        ∃ c, c ∈ GAME_CONFIG.BOX_CONTENTS ∧
             ∀ box, contents box = c → getCorrectLabelForBox box = JS.VString l).
Proof.
  split_and!; try (intros; vm_compute; reflexivity).
  - apply getCorrectLabelForBox_contents.
  - intros [i1 c1 l1] [i2 c2 l2]; simpl.
    intros [-> | [-> | ->]]%BOX_CONTENTS_cases [-> | [-> | ->]]%BOX_CONTENTS_cases;
      vm_compute; congruence.
  - intros [i c l]; simpl. unfold GAME_CONFIG.BOX_LABELS.
    intros [-> | [-> | ->]]%BOX_CONTENTS_cases; eexists;
      (split; [|vm_compute; reflexivity]); rewrite !elem_of_cons; auto.
  - unfold GAME_CONFIG.BOX_CONTENTS.
    intros l [-> | [-> | ->]]%BOX_LABELS_cases;
      [exists "white-white" | exists "red-red" | exists "red-white"];
      (split; [rewrite !elem_of_cons; auto|]);
      intros [i c l'] Hc; simpl in Hc; subst c; vm_compute; reflexivity.
Qed.

(** C8: the label derived for a box depends on its contents only, not on the
    label it displays, and the results of the evaluation are the same for
    any two lists of boxes that agree on the ids and the contents, whatever
    labels they display. *)
Theorem evaluation_ignores_displayed_label :
  (∀ b1 b2, contents b1 = contents b2 →
            getCorrectLabelForBox b1 = getCorrectLabelForBox b2) ∧
  (∀ box l, getCorrectLabelForBox (set_label box l) = getCorrectLabelForBox box) ∧
  (∀ st bs',
     id <$> bs' = id <$> boxes st →
     contents <$> bs' = contents <$> boxes st →
     calculateResults (set_boxes st bs') = calculateResults st).
Proof.
  split_and!.
  - apply getCorrectLabelForBox_contents.
  - intros box l. by apply getCorrectLabelForBox_contents.
  - intros st bs' Hid Hc. unfold calculateResults. simpl.
    assert (length bs' = length (boxes st)) as ->.
    { by rewrite <- (length_fmap id bs'), Hid, length_fmap. }
    exact (calculateResults_fold_fields _ (λ i, i) _ _ _ Hid Hc).
Qed.

(** The scan of [assignLabelToBox] and the scan by the evaluator's lookup. *)

Lemma assignLabelToBox_by_lookup_eq box shuffled used :
  contents box ∈ GAME_CONFIG.BOX_CONTENTS →
  (∀ l, l ∈ shuffled → l ∈ GAME_CONFIG.BOX_LABELS) →
  assignLabelToBox box shuffled used
  = assignLabelToBox_by_lookup box shuffled used.
Proof.
  intros Hc. induction shuffled as [|l rest IH]; intros Hlabels; [done|].
  simpl. rewrite IH by (intros x Hx; apply Hlabels; by right).
  case_bool_decide as Hused; [done|].
  pose proof (match_agrees_with_lookup (mkBox "" (contents box) l) Hc
                (Hlabels l ltac:(by left))) as Hiff.
  simpl in Hiff.
  rewrite (getCorrectLabelForBox_contents (mkBox "" (contents box) l) box)
    in Hiff by done.
  destruct (checkContentsMatchLabel (mkBox "" (contents box) l)) eqn:Hmatch.
  - rewrite bool_decide_eq_true_2; [done|]. by apply Hiff.
  - rewrite bool_decide_eq_false_2; [done|].
    intros Heq. apply Hiff in Heq. congruence.
Qed.

Lemma assignLabelToBox_by_lookup_true box shuffled used box' used' :
  assignLabelToBox_by_lookup box shuffled used = (true, box', used') ↔
  ∃ before l after,
    shuffled = (before ++ l :: after)%list ∧
    (∀ x, x ∈ before →
          x ∈ used ∨ JS.VString x = getCorrectLabelForBox box) ∧
    (l ∉ used) ∧
    JS.VString l ≠ getCorrectLabelForBox box ∧
    box' = set_label box l ∧ used' = used ∪ {[l]}.
Proof.
  induction shuffled as [|l0 rest IH]; simpl.
  { split; [done|]. intros (before & l & after & Heq & _).
    by destruct before. }
  assert (l0 ∈ used ∨ JS.VString l0 = getCorrectLabelForBox box →
          (assignLabelToBox_by_lookup box rest used = (true, box', used') ↔
           ∃ before l after,
             l0 :: rest = (before ++ l :: after)%list ∧
             (∀ x, x ∈ before →
                   x ∈ used ∨ JS.VString x = getCorrectLabelForBox box) ∧
             (l ∉ used) ∧
             JS.VString l ≠ getCorrectLabelForBox box ∧
             box' = set_label box l ∧ used' = used ∪ {[l]})) as Hskip.
  { intros Hl0. rewrite IH. split.
    - intros (before & l & after & -> & Hbefore & Hrest).
      exists (l0 :: before), l, after. split; [done|]. split; [|done].
      intros x [->|Hx]%elem_of_cons; auto.
    - intros (before & l & after & Heq & Hbefore & Hfresh & Hne & Hrest).
      destruct before as [|x before]; simpl in Heq; injection Heq as -> ->.
      + destruct Hl0; done.
      + exists before, l, after. split; [done|]. split; [|done].
        intros y Hy. apply Hbefore. by right. }
  case_bool_decide as Hused; [by apply Hskip; left|].
  case_bool_decide as Htrue; [by apply Hskip; right|].
  split.
  - intros [= <- <-]. exists [], l0, rest.
    split_and!; try done. by intros x ?%elem_of_nil.
  - intros (before & l & after & Heq & Hbefore & _ & _ & -> & ->).
    destruct before as [|x before]; simpl in Heq; injection Heq as -> ->.
    + done.
    + destruct (Hbefore x ltac:(by left)); done.
Qed.

Lemma assignLabelToBox_by_lookup_false box shuffled used box' used' :
  assignLabelToBox_by_lookup box shuffled used = (false, box', used') ↔
  box' = box ∧ used' = used ∧
  ∀ x, x ∈ shuffled → x ∈ used ∨ JS.VString x = getCorrectLabelForBox box.
Proof.
  induction shuffled as [|l0 rest IH]; simpl.
  { split; [intros [= <- <-]|intros (-> & -> & _)]; [|done].
    split_and!; [done..|]. by intros x ?%elem_of_nil. }
  assert (l0 ∈ used ∨ JS.VString l0 = getCorrectLabelForBox box →
          (assignLabelToBox_by_lookup box rest used = (false, box', used') ↔
           box' = box ∧ used' = used ∧
           ∀ x, x ∈ l0 :: rest →
                x ∈ used ∨ JS.VString x = getCorrectLabelForBox box)) as Hskip.
  { intros Hl0. rewrite IH. split; intros (-> & -> & Hall); split_and!; try done.
    - intros x [->|Hx]%elem_of_cons; auto.
    - intros x Hx. apply Hall. by right. }
  case_bool_decide as Hused; [by apply Hskip; left|].
  case_bool_decide as Htrue; [by apply Hskip; right|].
  split; [done|]. intros (_ & _ & Hall).
  destruct (Hall l0 ltac:(by left)); done.
Qed.

(** C9: on the three kinds of contents and the three labels, the
    normalisation test of the generator, [checkContentsMatchLabel], holds
    exactly when the label is the one [getCorrectLabelForBox] derives.  So
    for a box of the generation (any label, the empty one of a reset box
    included) and labels taken from the three, [assignLabelToBox] is the
    scan by the evaluator's lookup: it succeeds exactly with the first label
    that is not yet used and differs from the derived label of the box, and
    fails exactly when every label is used or is the derived one. *)
Theorem checkContentsMatchLabel_agrees (box : Box) (shuffled : list string)
    (used : gset string) :
  contents box ∈ GAME_CONFIG.BOX_CONTENTS →
  (∀ l, l ∈ shuffled → l ∈ GAME_CONFIG.BOX_LABELS) →
  (∀ l, l ∈ GAME_CONFIG.BOX_LABELS →
        checkContentsMatchLabel (set_label box l) = true ↔
        JS.VString l = getCorrectLabelForBox box) ∧
  assignLabelToBox box shuffled used
  = assignLabelToBox_by_lookup box shuffled used ∧
  (∀ box' used',
     assignLabelToBox box shuffled used = (true, box', used') ↔
     ∃ before l after,
       shuffled = (before ++ l :: after)%list ∧
       (∀ x, x ∈ before →
             x ∈ used ∨ JS.VString x = getCorrectLabelForBox box) ∧
       (l ∉ used) ∧
       JS.VString l ≠ getCorrectLabelForBox box ∧
       box' = set_label box l ∧ used' = used ∪ {[l]}) ∧
  (∀ box' used',
     assignLabelToBox box shuffled used = (false, box', used') ↔
     box' = box ∧ used' = used ∧
     ∀ x, x ∈ shuffled →
          x ∈ used ∨ JS.VString x = getCorrectLabelForBox box).
Proof.
  intros Hc Hlabels.
  pose proof (assignLabelToBox_by_lookup_eq box shuffled used Hc Hlabels) as Heq.
  split_and!.
  - intros l Hl.
    rewrite (match_agrees_with_lookup (set_label box l)) by done.
    by rewrite (getCorrectLabelForBox_contents (set_label box l) box).
  - exact Heq.
  - intros box' used'. rewrite Heq. apply assignLabelToBox_by_lookup_true.
  - intros box' used'. rewrite Heq. apply assignLabelToBox_by_lookup_false.
Qed.

Lemma checkContentsMatchLabel_agrees_witness :
  assignLabelToBox (mkBox "matchbox-1" "white-white" "")
    GAME_CONFIG.BOX_LABELS ∅
  = (true, mkBox "matchbox-1" "white-white" "Red and Red", ∅ ∪ {["Red and Red"]}).
Proof.
  destruct (checkContentsMatchLabel_agrees
              (mkBox "matchbox-1" "white-white" "") GAME_CONFIG.BOX_LABELS ∅)
    as (_ & _ & Htrue & _).
  - by_evaluation.
  - intros l Hl. exact Hl.
  - apply Htrue.
    exists ["White and White"], "Red and Red", ["Red and White"].
    split_and!;
      [ reflexivity
      | intros x ->%list_elem_of_singleton; right; vm_compute; reflexivity
      | apply not_elem_of_empty
      | vm_compute; congruence
      | reflexivity
      | reflexivity ].
Defined.

(** C10 as stated fails: for the contents string 'constructor', which is
    none of the three kinds, the lookup in the object literal finds the
    member inherited from [Object.prototype], a truthy value, and
    [getCorrectLabelForBox] returns it instead of the empty string.  For the
    empty string of an unassigned box it does return the empty string. *)
Theorem getCorrectLabelForBox_inherited_member :
  ("constructor" ∉ GAME_CONFIG.BOX_CONTENTS) ∧
  getCorrectLabelForBox (mkBox "matchbox-1" "constructor" "")
  = JS.VFunction "constructor" ∧
  getCorrectLabelForBox (mkBox "matchbox-1" "constructor" "") ≠ JS.VString "" ∧
  getCorrectLabelForBox (mkBox "matchbox-1" "" "") = JS.VString "".
Proof.
  split_and!; [|vm_compute; reflexivity|vm_compute; congruence|vm_compute; reflexivity].
  unfold GAME_CONFIG.BOX_CONTENTS. rewrite !not_elem_of_cons.
  split_and!; [done..|]. apply not_elem_of_nil.
Qed.

(** C10, amended: for a box whose contents are none of the three kinds and
    name no member inherited from [Object.prototype], the empty string of an
    unassigned box among them, [getCorrectLabelForBox] returns the empty
    string; on the contents the script stores, the empty string and the
    three kinds, it returns the empty string or a label; and the evaluation
    throws in no state. *)
Theorem getCorrectLabelForBox_out_of_domain (box : Box) :
  contents box ∉ GAME_CONFIG.BOX_CONTENTS →
  contents box ∉ JS.object_prototype_methods →
  contents box ≠ "__proto__" →
  getCorrectLabelForBox box = JS.VString "" ∧
  (∀ b, contents b = "" → getCorrectLabelForBox b = JS.VString "") ∧
  (∀ b, contents b ∈ "" :: GAME_CONFIG.BOX_CONTENTS →
        ∃ l, l ∈ "" :: GAME_CONFIG.BOX_LABELS ∧
             getCorrectLabelForBox b = JS.VString l) ∧
  (∀ st, checkAnswers st = JS.Returned (calculateResults st) ∧
         ¬ signals_invalid_input (checkAnswers st)).
Proof.
  intros Hkind Hmethod Hproto. split_and!.
  - apply getCorrectLabelForBox_default; [done|].
    unfold JS.object_prototype.
    by rewrite !bool_decide_eq_false_2.
  - intros [i c l]. simpl. intros ->. vm_compute. reflexivity.
  - intros [i c l]. simpl. unfold GAME_CONFIG.BOX_CONTENTS, GAME_CONFIG.BOX_LABELS.
    rewrite !elem_of_cons, elem_of_nil.
    intros [->|[->|[->|[->|[]]]]]; eexists;
      (split; [|vm_compute; reflexivity]); rewrite !elem_of_cons; auto.
  - intros st. split; [reflexivity|]. intros [error Herror]. discriminate Herror.
Qed.

Lemma getCorrectLabelForBox_out_of_domain_witness :
  getCorrectLabelForBox (mkBox "matchbox-1" "" "") = JS.VString "".
Proof.
  apply (getCorrectLabelForBox_out_of_domain (mkBox "matchbox-1" "" ""));
    by_evaluation.
Defined.

(** C5: in a state with the three boxes the evaluation has total 3; a box
    counts as correct exactly when the guess recorded for it equals, as a
    value, the label derived from its contents; the score is the number of
    such boxes; and when every guess equals the derived label the score is 3
    and every entry of the details is marked correct. *)
Theorem calculateResults_counts_matches (st : GameState) :
  well_formed st →
  let sel := userLabelSelections st in
  let results := calculateResults st in
  total results = 3 ∧
  (∀ box, guessIsCorrect sel box = true ↔
          JS.get sel (id box) = getCorrectLabelForBox box) ∧
  correct results = matchCount sel (boxes st) ∧
  details results = imap (detailOf sel) (boxes st) ∧
  correct results ≤ 3 ∧
  ((∀ box, box ∈ boxes st → JS.get sel (id box) = getCorrectLabelForBox box) →
   correct results = 3 ∧ Forall (λ d, isCorrect d = true) (details results)).
Proof.
  intros Hwf sel results. subst results. rewrite calculateResults_unfold.
  fold sel. simpl. pose proof (well_formed_length _ Hwf) as Hlen.
  assert (∀ box, guessIsCorrect sel box = true ↔
                 JS.get sel (id box) = getCorrectLabelForBox box) as Hguess.
  { intros box. unfold guessIsCorrect, JS.strict_eq. apply bool_decide_eq_true. }
  split_and!; try done.
  - rewrite <- Hlen. unfold matchCount. apply length_filter.
  - intros Hall.
    assert (Forall (λ box, guessIsCorrect sel box = true) (boxes st)) as Hfa.
    { apply Forall_forall. intros box Hbox. by apply Hguess, Hall. }
    split; [by rewrite matchCount_all|].
    apply Forall_forall. intros d (k & Hd)%list_elem_of_lookup_1.
    rewrite list_lookup_imap in Hd.
    destruct (boxes st !! k) as [box|] eqn:Hk; [|done].
    injection Hd as <-. simpl.
    rewrite Forall_forall in Hfa. apply Hfa. by eapply list_elem_of_lookup_2.
Qed.

Lemma calculateResults_counts_matches_witness :
  total (calculateResults solvedState) = 3 ∧
  correct (calculateResults solvedState) = 3 ∧
  Forall (λ d, isCorrect d = true) (details (calculateResults solvedState)).
Proof.
  pose proof (calculateResults_counts_matches solvedState
                (recordSelection_well_formed _ _ _
                  (recordSelection_well_formed _ _ _
                    (recordSelection_well_formed _ _ _
                      (fallbackBoxes_well_formed initialGameState)))))
    as (Htotal & _ & _ & _ & _ & Hall).
  split; [exact Htotal|]. apply Hall.
  intros box Hbox. unfold solvedState in Hbox. simpl in Hbox.
  repeat (apply elem_of_cons in Hbox as [-> | Hbox]; [vm_compute; reflexivity|]).
  by apply elem_of_nil in Hbox.
Defined.

(** C6: for a configuration holding each kind of contents once, guesses that
    are the true labels with the guesses of two boxes swapped score
    exactly 1. *)
Theorem swapped_guesses_score_one (st : GameState) (i j : nat) :
  well_formed st →
  contents <$> boxes st ≡ₚ GAME_CONFIG.BOX_CONTENTS →
  i < 3 → j < 3 → i ≠ j →
  swapped_guesses i j st →
  correct (calculateResults st) = 1 ∧ total (calculateResults st) = 3.
Proof.
  intros Hwf Hperm Hi Hj Hij Hswap.
  rewrite calculateResults_unfold. simpl.
  split; [|by apply well_formed_length].
  destruct (well_formed_inv _ Hwf) as (c1 & l1 & c2 & l2 & c3 & l3 & Hbs).
  unfold swapped_guesses in Hswap. rewrite Hbs in Hperm, Hswap |- *.
  unfold matchCount, guessIsCorrect.
  apply contents_cases in Hperm. vm_compute permutations in Hperm.
  assert (i = 0 ∨ i = 1 ∨ i = 2) as Hi' by lia.
  assert (j = 0 ∨ j = 1 ∨ j = 2) as Hj' by lia.
  pose proof (λ box', Hswap 0 _ box' eq_refl) as H0.
  pose proof (λ box', Hswap 1 _ box' eq_refl) as H1.
  pose proof (λ box', Hswap 2 _ box' eq_refl) as H2.
  clear Hswap Hi Hj.
  destruct Hi' as [-> | [-> | ->]], Hj' as [-> | [-> | ->]]; try done;
    specialize (H0 _ eq_refl); specialize (H1 _ eq_refl);
    specialize (H2 _ eq_refl); simpl in H0, H1, H2;
    rewrite !filter_cons, filter_nil; simpl; rewrite H0, H1, H2;
    repeat (apply elem_of_cons in Hperm as [[= -> -> ->] | Hperm];
            [vm_compute; reflexivity|]);
    by apply elem_of_nil in Hperm.
Qed.

Lemma swappedState_swapped_guesses : swapped_guesses 0 1 swappedState.
Proof.
  intros [|[|[|k]]] box box'; simpl; intros [= <-]; try done;
    intros [= <-]; vm_compute; reflexivity.
Qed.

Lemma swapped_guesses_score_one_witness :
  correct (calculateResults swappedState) = 1 ∧
  total (calculateResults swappedState) = 3.
Proof.
  apply (swapped_guesses_score_one swappedState 0 1).
  - reflexivity.
  - reflexivity.
  - lia.
  - lia.
  - lia.
  - exact swappedState_swapped_guesses.
Defined.

(** C2 as stated fails: with the third selection still empty the evaluation
    throws nothing and returns a score of 2 out of 3. *)
Lemma incomplete_guess_not_signalled :
  well_formed incompleteState ∧
  incomplete incompleteState ∧
  (∃ results, checkAnswers incompleteState = JS.Returned results ∧
              correct results = 2 ∧ total results = 3) ∧
  ¬ signals_invalid_input (checkAnswers incompleteState).
Proof.
  split_and!.
  - reflexivity.
  - exists (mkBox "matchbox-3" "red-white" "White and White").
    split; [by_evaluation|vm_compute; reflexivity].
  - eexists. split; [reflexivity|]. split; vm_compute; reflexivity.
  - intros [error Herror]. discriminate Herror.
Qed.

(** C2, amended: the evaluation has no invalid-input path.  With an
    incomplete GuessSet [checkAnswers] signals nothing and returns the
    results of [calculateResults] as for any other, with total 3, in which a
    box of valid contents whose selection is empty is counted as not
    correct, so a partial score below 3 is computed. *)
Theorem incomplete_guess_scored_as_miss (st : GameState) (box : Box) :
  well_formed st →
  box ∈ boxes st →
  contents box ∈ GAME_CONFIG.BOX_CONTENTS →
  userLabelSelections st !! id box = Some "" →
  checkAnswers st = JS.Returned (calculateResults st) ∧
  ¬ signals_invalid_input (checkAnswers st) ∧
  total (calculateResults st) = 3 ∧
  correct (calculateResults st) = matchCount (userLabelSelections st) (boxes st) ∧
  guessIsCorrect (userLabelSelections st) box = false ∧
  correct (calculateResults st) < 3.
Proof.
  intros Hwf Hbox Hc Hsel.
  assert (guessIsCorrect (userLabelSelections st) box = false) as Hmiss.
  { unfold guessIsCorrect, JS.get. rewrite Hsel.
    destruct box as [i c l]; simpl in *.
    apply BOX_CONTENTS_cases in Hc as [-> | [-> | ->]]; vm_compute; reflexivity. }
  pose proof (well_formed_length _ Hwf) as Hlen.
  split_and!.
  - reflexivity.
  - intros [error Herror]. discriminate Herror.
  - by rewrite calculateResults_unfold.
  - by rewrite calculateResults_unfold.
  - done.
  - rewrite calculateResults_unfold. simpl.
    rewrite <- Hlen. by eapply matchCount_miss.
Qed.

Lemma incomplete_guess_scored_as_miss_witness :
  checkAnswers incompleteState = JS.Returned (calculateResults incompleteState) ∧
  ¬ signals_invalid_input (checkAnswers incompleteState) ∧
  correct (calculateResults incompleteState) < 3.
Proof.
  destruct (incomplete_guess_scored_as_miss incompleteState
              (mkBox "matchbox-3" "red-white" "White and White"))
    as (Hret & Hsilent & _ & _ & _ & Hlt).
  - reflexivity.
  - by_evaluation.
  - by_evaluation.
  - vm_compute. reflexivity.
  - exact (conj Hret (conj Hsilent Hlt)).
Defined.

(** ** The generator *)

(** C1: called on a state with the three boxes, with a random source whose
    shuffles rearrange the contents and the labels, the generator returns a
    configuration in which the contents of the boxes are the three kinds,
    each once, the labels are the three labels, each once, and the label of
    every box differs from the label derived from its contents; the
    configuration is the outcome of a successful attempt or the fallback. *)
Theorem generatePuzzleConfiguration_valid (rs : RandomSource) (st : GameState) :
  well_formed st →
  random_source_ok rs →
  ∃ run st',
    generatePuzzleConfiguration rs st = Some run ∧
    final run = JS.Returned st' ∧
    id <$> boxes st' = BOX_IDS ∧
    contents <$> boxes st' ≡ₚ GAME_CONFIG.BOX_CONTENTS ∧
    NoDup (contents <$> boxes st') ∧
    label <$> boxes st' ≡ₚ GAME_CONFIG.BOX_LABELS ∧
    NoDup (label <$> boxes st') ∧
    Forall (λ box, JS.VString (label box) ≠ getCorrectLabelForBox box)
           (boxes st') ∧
    match exit run with
    | Success => ∃ s, well_formed s ∧
        tryGenerateValidConfiguration (rs (attempts run)) s = (true, st')
    | Fallback => boxes st' = fallbackBoxes
    end.
Proof.
  intros Hwf Hrs.
  destruct (generateLoop_terminates (S GAME_CONFIG.MAX_ATTEMPTS)
              GAME_CONFIG.MAX_ATTEMPTS 0 0 rs st) as (run & Hrun & _); [lia..|].
  destruct (generateLoop_returns _ _ _ _ _ _ _ Hrun Hwf)
    as (st' & Hfinal & Hwf' & Hvalid & Hexit).
  destruct (Hvalid Hrs) as [Hc Hl Hm].
  exists run, st'. split_and!; try done.
  - rewrite Hc. by_evaluation.
  - rewrite Hl. by_evaluation.
Qed.

Lemma failingSource_ok : random_source_ok failingSource.
Proof.
  intros n. split; by_evaluation.
Qed.

Lemma fourthTimeLucky_ok : random_source_ok fourthTimeLucky.
Proof.
  intros n. unfold fourthTimeLucky.
  destruct (n <? 3)%nat; split; by_evaluation.
Qed.

Lemma generatePuzzleConfiguration_valid_witness :
  ∃ run st',
    generatePuzzleConfiguration fourthTimeLucky initialGameState = Some run ∧
    final run = JS.Returned st' ∧
    id <$> boxes st' = BOX_IDS ∧
    contents <$> boxes st' ≡ₚ GAME_CONFIG.BOX_CONTENTS ∧
    NoDup (contents <$> boxes st') ∧
    label <$> boxes st' ≡ₚ GAME_CONFIG.BOX_LABELS ∧
    NoDup (label <$> boxes st') ∧
    Forall (λ box, JS.VString (label box) ≠ getCorrectLabelForBox box)
           (boxes st') ∧
    match exit run with
    | Success => ∃ s, well_formed s ∧
        tryGenerateValidConfiguration (fourthTimeLucky (attempts run)) s
        = (true, st')
    | Fallback => boxes st' = fallbackBoxes
    end.
Proof.
  apply (generatePuzzleConfiguration_valid fourthTimeLucky initialGameState).
  - reflexivity.
  - exact fourthTimeLucky_ok.
Defined.

(** C3: called on a state with the three boxes the generator returns for
    every random source, without an exception.  When every one of the
    [MAX_ATTEMPTS] attempts fails it leaves through the fallback, which sets
    the boxes to the hardcoded configuration; that configuration has distinct
    contents, distinct labels and every box mislabeled.  With a random source
    whose shuffles rearrange the contents and the labels the configuration
    returned is valid on either path. *)
Theorem generatePuzzleConfiguration_never_fails (rs : RandomSource)
    (st : GameState) :
  well_formed st →
  ∃ run st',
    generatePuzzleConfiguration rs st = Some run ∧
    final run = JS.Returned st' ∧
    well_formed st' ∧
    ((∀ n s, n < GAME_CONFIG.MAX_ATTEMPTS → well_formed s →
             (tryGenerateValidConfiguration (rs n) s).1 = false) →
     exit run = Fallback) ∧
    (exit run = Fallback →
     attempts run = GAME_CONFIG.MAX_ATTEMPTS ∧ boxes st' = fallbackBoxes) ∧
    setFallbackConfiguration st = JS.Returned (set_boxes st fallbackBoxes) ∧
    valid_configuration fallbackBoxes ∧
    (random_source_ok rs → valid_configuration (boxes st')).
Proof.
  intros Hwf.
  destruct (generateLoop_terminates (S GAME_CONFIG.MAX_ATTEMPTS)
              GAME_CONFIG.MAX_ATTEMPTS 0 0 rs st)
    as (run & Hrun & _ & Hcount); [lia..|].
  destruct (generateLoop_returns _ _ _ _ _ _ _ Hrun Hwf)
    as (st' & Hfinal & Hwf' & Hvalid & Hexit).
  exists run, st'. split_and!; try done.
  - intros Hfail. eapply generateLoop_all_fail; [exact Hrun|done|].
    intros n s [_ Hn] Hs. by apply Hfail.
  - intros Hfb. rewrite Hfb in Hcount, Hexit. by destruct Hcount.
  - by apply setFallbackConfiguration_returns.
  - apply fallbackBoxes_valid.
Qed.

Lemma failingSource_fails n s :
  well_formed s → (tryGenerateValidConfiguration (failingSource n) s).1 = false.
Proof.
  intros (c1 & l1 & c2 & l2 & c3 & l3 & Hbs)%well_formed_inv.
  unfold tryGenerateValidConfiguration. rewrite Hbs. vm_compute. reflexivity.
Qed.

Lemma generatePuzzleConfiguration_never_fails_witness :
  ∃ run,
    generatePuzzleConfiguration failingSource initialGameState = Some run ∧
    final run = JS.Returned fallbackState ∧
    exit run = Fallback ∧
    valid_configuration (boxes fallbackState).
Proof.
  destruct (generatePuzzleConfiguration_never_fails failingSource initialGameState)
    as (run & st' & Hrun & Hfinal & _ & Hfail & Hfb & _ & Hvalid & _).
  - reflexivity.
  - exists run. split; [exact Hrun|].
    assert (exit run = Fallback) as Hexit.
    { apply Hfail. intros n s _ Hs. by apply failingSource_fails. }
    destruct (Hfb Hexit) as [_ Hboxes].
    split_and!; [|exact Hexit|exact Hvalid].
    rewrite Hfinal. f_equal.
    vm_compute in Hrun. injection Hrun as <-.
    vm_compute in Hfinal. injection Hfinal as <-. reflexivity.
Defined.

(** C7: for every random source and every state the generator terminates:
    the loop makes at most [MAX_ATTEMPTS] = 50 calls of
    [tryGenerateValidConfiguration], exactly 50 when it leaves through the
    fallback, and [MAX_ATTEMPTS + 1] evaluations of the loop condition are
    enough for every run. *)
Theorem generatePuzzleConfiguration_terminates (rs : RandomSource)
    (st : GameState) :
  ∃ run,
    generatePuzzleConfiguration rs st = Some run ∧
    (∀ fuel, GAME_CONFIG.MAX_ATTEMPTS < fuel →
             generatePuzzleConfiguration_fuel fuel rs st = Some run) ∧
    GAME_CONFIG.MAX_ATTEMPTS = 50 ∧
    attempts run ≤ GAME_CONFIG.MAX_ATTEMPTS ∧
    trials run ≤ GAME_CONFIG.MAX_ATTEMPTS ∧
    match exit run with
    | Success => trials run = attempts run + 1
    | Fallback => trials run = GAME_CONFIG.MAX_ATTEMPTS
    end.
Proof.
  destruct (generateLoop_terminates (S GAME_CONFIG.MAX_ATTEMPTS)
              GAME_CONFIG.MAX_ATTEMPTS 0 0 rs st)
    as (run & Hrun & Hbound & Hcount); [lia..|].
  exists run. split_and!; [done| |done|lia| |].
  - intros fuel Hfuel. unfold generatePuzzleConfiguration_fuel.
    eapply generateLoop_fuel_mono; [exact Hrun|lia].
  - destruct (exit run); lia.
  - destruct (exit run); lia.
Qed.

(** * Further properties of the script *)

(** ** Checking a box *)

Lemma selectMatchbox_checked box st :
  hasCheckedBox st = true → selectMatchbox box st = st.
Proof. unfold selectMatchbox. by intros ->. Qed.

Lemma selectMatchbox_clicks_checked clicks st :
  hasCheckedBox st = true →
  foldl (λ s box, selectMatchbox box s) st clicks = st.
Proof.
  revert st. induction clicks as [|box clicks IH]; intros st Hchecked; [done|].
  simpl. rewrite selectMatchbox_checked by done. by apply IH.
Qed.

(** X1: of any series of clicks on check buttons only the first one counts:
    the box of the first click is the selected one, and the boxes and the
    recorded guesses are untouched. *)
Theorem selectMatchbox_first_click_wins (st : GameState) (box : Box)
    (clicks : list Box) :
  hasCheckedBox st = false →
  let st' := foldl (λ s b, selectMatchbox b s) st (box :: clicks) in
  selectedBox st' = Some (id box) ∧
  hasCheckedBox st' = true ∧
  boxes st' = boxes st ∧
  userLabelSelections st' = userLabelSelections st ∧
  ∀ more, foldl (λ s b, selectMatchbox b s) st' more = st'.
Proof.
  intros Hfresh st'.
  assert (st' = {| boxes := boxes st; selectedBox := Some (id box);
                   hasCheckedBox := true;
                   userLabelSelections := userLabelSelections st |}) as ->.
  { subst st'. simpl. unfold selectMatchbox at 2. rewrite Hfresh.
    by apply selectMatchbox_clicks_checked. }
  split_and!; try done.
  intros more. by apply selectMatchbox_clicks_checked.
Qed.

Lemma selectMatchbox_first_click_wins_witness :
  selectedBox
    (foldl (λ s b, selectMatchbox b s) fallbackState
       [ mkBox "matchbox-2" "red-red" "Red and White";
         mkBox "matchbox-1" "white-white" "Red and Red" ])
  = Some "matchbox-2".
Proof.
  apply (selectMatchbox_first_click_wins fallbackState
           (mkBox "matchbox-2" "red-red" "Red and White")
           [ mkBox "matchbox-1" "white-white" "Red and Red" ]).
  reflexivity.
Defined.

(** ** Resetting and replaying *)

Lemma resetBoxes_well_formed st :
  well_formed st →
  (λ box, set_label (set_contents box "") "") <$> boxes st
  = boxes initialGameState.
Proof.
  intros (c1 & l1 & c2 & l2 & c3 & l3 & Hbs)%well_formed_inv.
  rewrite Hbs. reflexivity.
Qed.

(** X2: [GameState.reset()] takes every state with the three boxes back to
    the state the script starts with: no contents, no labels, no guesses, no
    box checked. *)
Theorem reset_restores_initial_state (st : GameState) :
  well_formed st → reset st = initialGameState.
Proof.
  intros Hwf. unfold reset. rewrite resetBoxes_well_formed by done.
  reflexivity.
Qed.

Lemma reset_restores_initial_state_witness : reset solvedState = initialGameState.
Proof. apply (reset_restores_initial_state solvedState). reflexivity. Defined.

Lemma tryGenerateValidConfiguration_from_ids r st :
  well_formed st →
  tryGenerateValidConfiguration r st
  = (let '(ok, bs) := assignBoxes (boxes initialGameState) r ∅ ∅ in
     (ok, set_boxes st bs)).
Proof.
  intros Hwf. unfold tryGenerateValidConfiguration.
  by rewrite resetBoxes_well_formed.
Qed.

Lemma set_boxes_set_boxes st bs bs' :
  set_boxes (set_boxes st bs) bs' = set_boxes st bs'.
Proof. reflexivity. Qed.

Lemma set_boxes_boxes st : set_boxes st (boxes st) = st.
Proof. by destruct st. Qed.

(** The loop run from two states with the three boxes: the same exit, the
    same counters and the same boxes; each state keeps its other fields. *)
Lemma generateLoop_frame fuel maxAttempts a t rs st run :
  generateLoop fuel maxAttempts a t rs st = Some run →
  well_formed st →
  ∃ bs, final run = JS.Returned (set_boxes st bs) ∧
        ∀ st2, well_formed st2 →
          generateLoop fuel maxAttempts a t rs st2
          = Some {| attempts := attempts run; trials := trials run;
                    exit := exit run;
                    final := JS.Returned (set_boxes st2 bs) |}.
Proof.
  revert a t st. induction fuel as [|fuel IH]; intros a t st; [done|]. simpl.
  destruct (a <? maxAttempts)%nat.
  - intros Hrun Hwf.
    pose proof (tryGenerateValidConfiguration_from_ids (rs a) st Hwf) as Htry.
    destruct (assignBoxes _ _ _ _) as [ok bs] eqn:Hbs.
    rewrite Htry in Hrun. destruct ok.
    + injection Hrun as <-. simpl. exists bs. split; [done|].
      intros st2 Hwf2.
      rewrite (tryGenerateValidConfiguration_from_ids (rs a) st2 Hwf2), Hbs.
      reflexivity.
    + assert (well_formed (set_boxes st bs)) as Hwf'.
      { eapply tryGenerateValidConfiguration_well_formed; [exact Htry|done]. }
      destruct (IH _ _ _ Hrun Hwf') as (bs' & Hfinal & Hother).
      exists bs'. split; [done|]. intros st2 Hwf2.
      rewrite (tryGenerateValidConfiguration_from_ids (rs a) st2 Hwf2), Hbs.
      rewrite (Hother (set_boxes st2 bs)); [done|].
      eapply tryGenerateValidConfiguration_well_formed; [|exact Hwf2].
      rewrite (tryGenerateValidConfiguration_from_ids (rs a) st2 Hwf2), Hbs.
      reflexivity.
  - intros [= <-] Hwf. simpl. exists fallbackBoxes.
    split; [by apply setFallbackConfiguration_returns|].
    intros st2 Hwf2. by rewrite setFallbackConfiguration_returns.
Qed.

(** X3: the generator writes the contents and the labels of the boxes and
    nothing else (ids, guesses, the checked flag and the selected box stay),
    and what it writes does not depend on what the boxes held before: from
    any two states with the three boxes it leaves the same boxes, by the same
    exit after the same number of attempts. *)
Theorem generatePuzzleConfiguration_frame (rs : RandomSource)
    (st st2 : GameState) :
  well_formed st → well_formed st2 →
  ∃ run run2 bs,
    generatePuzzleConfiguration rs st = Some run ∧
    generatePuzzleConfiguration rs st2 = Some run2 ∧
    final run = JS.Returned (set_boxes st bs) ∧
    final run2 = JS.Returned (set_boxes st2 bs) ∧
    id <$> bs = id <$> boxes st ∧
    exit run2 = exit run ∧ attempts run2 = attempts run ∧
    trials run2 = trials run.
Proof.
  intros Hwf Hwf2.
  destruct (generateLoop_terminates (S GAME_CONFIG.MAX_ATTEMPTS)
              GAME_CONFIG.MAX_ATTEMPTS 0 0 rs st) as (run & Hrun & _); [lia..|].
  destruct (generateLoop_frame _ _ _ _ _ _ _ Hrun Hwf) as (bs & Hfinal & Hother).
  destruct (generateLoop_returns _ _ _ _ _ _ _ Hrun Hwf)
    as (st' & Hfinal' & Hwf' & _).
  rewrite Hfinal in Hfinal'. injection Hfinal' as <-.
  eexists run, _, bs. split_and!; [exact Hrun|by apply Hother|done..| | | |];
    try done.
  unfold well_formed in Hwf, Hwf'. simpl in Hwf'. by rewrite Hwf, Hwf'.
Qed.

Lemma generatePuzzleConfiguration_frame_witness :
  ∃ run run2 bs,
    generatePuzzleConfiguration fourthTimeLucky solvedState = Some run ∧
    generatePuzzleConfiguration fourthTimeLucky initialGameState = Some run2 ∧
    final run = JS.Returned (set_boxes solvedState bs) ∧
    final run2 = JS.Returned (set_boxes initialGameState bs) ∧
    id <$> bs = id <$> boxes solvedState ∧
    exit run2 = exit run ∧ attempts run2 = attempts run ∧
    trials run2 = trials run.
Proof.
  apply (generatePuzzleConfiguration_frame fourthTimeLucky solvedState
           initialGameState); reflexivity.
Defined.

(** X4: Play Again and Reset Puzzle do the same to the state, and both are a
    fresh start: from any state with the three boxes they give what
    [initializeGame] gives from the initial state, so the new round has
    every guess empty, the submit flag false and no box checked. *)
Theorem resetGame_is_fresh_start (rs : RandomSource) (st : GameState) :
  well_formed st →
  resetPuzzle rs st = resetGame rs st ∧
  resetGame rs st = initializeGame rs initialGameState ∧
  ∃ run st',
    resetGame rs st = Some run ∧
    final run = JS.Returned st' ∧
    well_formed st' ∧
    userLabelSelections st' = emptySelections ∧
    (∀ box, box ∈ boxes st' →
            JS.get (userLabelSelections st') (id box) = JS.VString "") ∧
    allSelected st' = false ∧
    hasCheckedBox st' = false ∧
    selectedBox st' = None ∧
    (random_source_ok rs → valid_configuration (boxes st')).
Proof.
  intros Hwf. split; [done|].
  unfold resetGame.
  assert (reset st = initialGameState) as ->.
  { unfold reset. by rewrite resetBoxes_well_formed. }
  split; [done|]. unfold initializeGame.
  destruct (generateLoop_terminates (S GAME_CONFIG.MAX_ATTEMPTS)
              GAME_CONFIG.MAX_ATTEMPTS 0 0 rs initialGameState)
    as (run & Hrun & _); [lia..|].
  destruct (generateLoop_frame _ _ _ _ _ _ _ Hrun initialGameState_well_formed)
    as (bs & Hfinal & _).
  destruct (generateLoop_returns _ _ _ _ _ _ _ Hrun initialGameState_well_formed)
    as (st' & Hfinal' & Hwf' & Hvalid & _).
  rewrite Hfinal in Hfinal'. injection Hfinal' as <-.
  exists run, (set_boxes initialGameState bs).
  split_and!; try done.
  intros box Hbox.
  assert (id box ∈ BOX_IDS) as Hid.
  { rewrite <- Hwf'. by apply list_elem_of_fmap_2. }
  simpl. unfold BOX_IDS in Hid.
  repeat (apply elem_of_cons in Hid as [-> | Hid]; [vm_compute; reflexivity|]).
  by apply elem_of_nil in Hid.
Qed.

Lemma resetGame_is_fresh_start_witness :
  resetGame failingSource solvedState
  = initializeGame failingSource initialGameState.
Proof.
  apply (resetGame_is_fresh_start failingSource solvedState). reflexivity.
Defined.

(** ** The attempts of the generator, shuffle by shuffle *)

Lemma shuffles_ok_cases r : shuffles_ok r → r ∈ allShuffles.
Proof.
  destruct r as [c l]. intros [Hc Hl]. simpl in *. unfold allShuffles.
  apply list_elem_of_bind. exists c.
  split; [|by apply permutations_Permutation].
  apply list_elem_of_bind. exists l.
  split; [by apply list_elem_of_singleton|by apply permutations_Permutation].
Qed.

Lemma valid_configuration_cases bs :
  id <$> bs = BOX_IDS → valid_configuration bs → bs ∈ validConfigurations.
Proof.
  intros Hid [Hc Hl Hm]. unfold validConfigurations.
  apply list_elem_of_bind. exists (contents <$> bs).
  split; [|by apply permutations_Permutation].
  apply list_elem_of_bind. exists (label <$> bs).
  split; [|by apply permutations_Permutation].
  assert (zip_with (λ i cl, mkBox i cl.1 cl.2) BOX_IDS
            (zip (contents <$> bs) (label <$> bs)) = bs) as ->.
  { unfold BOX_IDS in *.
    destruct bs as [|[i1 c1 l1] [|[i2 c2 l2] [|[i3 c3 l3] [|? ?]]]];
      simpl in Hid; try discriminate Hid.
    injection Hid as -> -> ->. reflexivity. }
  rewrite bool_decide_eq_true_2 by done. by apply list_elem_of_singleton.
Qed.

(** Case analysis on a membership in an explicit list. *)
Ltac each_member H :=
  repeat (apply elem_of_cons in H as [H | H]; [subst|]);
  [..|by apply elem_of_nil in H].

(** X5: with shuffles that rearrange the contents and the labels, an attempt
    succeeds exactly when the last label of the label shuffle does not
    describe the last contents of the contents shuffle. *)
Theorem attempt_succeeds_iff (r : Shuffles) (st : GameState) :
  shuffles_ok r → well_formed st →
  (tryGenerateValidConfiguration r st).1
  = negb (checkContentsMatchLabel
            {| id := "";
               contents := List.last (shuffledContents r) "";
               label := List.last (shuffledLabels r) "" |}).
Proof.
  intros Hr%shuffles_ok_cases Hwf.
  rewrite tryGenerateValidConfiguration_from_ids by done.
  vm_compute allShuffles in Hr.
  each_member Hr; vm_compute; reflexivity.
Qed.

Lemma attempt_succeeds_iff_witness :
  (tryGenerateValidConfiguration goodShuffles initialGameState).1
  = negb (checkContentsMatchLabel (mkBox "" "red-white" "Red and Red")).
Proof.
  apply (attempt_succeeds_iff goodShuffles initialGameState).
  - split; by_evaluation.
  - reflexivity.
Defined.

(** X6: a failed attempt, with shuffles that rearrange the contents and the
    labels, has failed at the third box: the three boxes hold the three
    kinds of contents, the first two carry labels that mislabel them, and
    the third is left without a label because the only label not yet used
    is its true one. *)
Theorem failed_attempt_shape (r : Shuffles) (st st' : GameState) :
  shuffles_ok r → well_formed st →
  tryGenerateValidConfiguration r st = (false, st') →
  ∃ b1 b2 b3 l3,
    boxes st' = [b1; b2; b3] ∧
    [contents b1; contents b2; contents b3] ≡ₚ GAME_CONFIG.BOX_CONTENTS ∧
    label b3 = "" ∧
    getCorrectLabelForBox b3 = JS.VString l3 ∧
    [label b1; label b2; l3] ≡ₚ GAME_CONFIG.BOX_LABELS ∧
    JS.VString (label b1) ≠ getCorrectLabelForBox b1 ∧
    JS.VString (label b2) ≠ getCorrectLabelForBox b2.
Proof.
  intros Hr%shuffles_ok_cases Hwf.
  rewrite tryGenerateValidConfiguration_from_ids by done.
  vm_compute allShuffles in Hr.
  each_member Hr; vm_compute assignBoxes; intros Htry;
    first
      [ discriminate Htry
      | injection Htry as <-; simpl; do 3 eexists; eexists;
        split_and!;
        [ reflexivity | by_evaluation | reflexivity | vm_compute; reflexivity
        | by_evaluation | vm_compute; congruence | vm_compute; congruence ] ].
Qed.

Lemma failed_attempt_shape_witness :
  ∃ b1 b2 b3 l3,
    boxes (tryGenerateValidConfiguration deadEndShuffles initialGameState).2
    = [b1; b2; b3] ∧
    [contents b1; contents b2; contents b3] ≡ₚ GAME_CONFIG.BOX_CONTENTS ∧
    label b3 = "" ∧
    getCorrectLabelForBox b3 = JS.VString l3 ∧
    [label b1; label b2; l3] ≡ₚ GAME_CONFIG.BOX_LABELS ∧
    JS.VString (label b1) ≠ getCorrectLabelForBox b1 ∧
    JS.VString (label b2) ≠ getCorrectLabelForBox b2.
Proof.
  apply (failed_attempt_shape deadEndShuffles initialGameState).
  - split; by_evaluation.
  - reflexivity.
  - vm_compute. reflexivity.
Defined.

(** X7: the generator can produce every valid configuration: the attempt
    whose shuffles list the contents and the labels of a valid configuration
    in the order of the boxes succeeds and assigns exactly it. *)
Theorem every_valid_configuration_is_produced (st : GameState) (bs : list Box) :
  well_formed st →
  id <$> bs = BOX_IDS →
  valid_configuration bs →
  shuffles_ok (mkShuffles (contents <$> bs) (label <$> bs)) ∧
  tryGenerateValidConfiguration (mkShuffles (contents <$> bs) (label <$> bs)) st
  = (true, set_boxes st bs).
Proof.
  intros Hwf Hid Hvalid.
  split; [by destruct Hvalid|].
  rewrite tryGenerateValidConfiguration_from_ids by done.
  pose proof (valid_configuration_cases _ Hid Hvalid) as Hbs.
  vm_compute validConfigurations in Hbs.
  each_member Hbs; vm_compute; reflexivity.
Qed.

Lemma every_valid_configuration_is_produced_witness :
  tryGenerateValidConfiguration
    (mkShuffles (contents <$> fallbackBoxes) (label <$> fallbackBoxes))
    initialGameState
  = (true, fallbackState).
Proof.
  apply (every_valid_configuration_is_produced initialGameState fallbackBoxes).
  - reflexivity.
  - reflexivity.
  - exact fallbackBoxes_valid.
Defined.

(** X8: the attempts do not produce the valid configurations equally often.
    Of the 36 pairs of shuffles 24 succeed; a valid configuration in which
    the first box carries the true label of the third box is produced by 3
    of them, any other valid configuration by 1. *)
Theorem generator_prefers_some_configurations (b1 b2 b3 : Box) :
  id <$> [b1; b2; b3] = BOX_IDS →
  valid_configuration [b1; b2; b3] →
  length allShuffles = 36 ∧
  length (List.filter
            (λ r, (tryGenerateValidConfiguration r initialGameState).1)
            allShuffles) = 24 ∧
  length (producedBy [b1; b2; b3])
  = if bool_decide (JS.VString (label b1) = getCorrectLabelForBox b3)
    then 3 else 1.
Proof.
  intros Hid Hvalid.
  split; [vm_compute; reflexivity|]. split; [vm_compute; reflexivity|].
  pose proof (valid_configuration_cases _ Hid Hvalid) as Hbs.
  vm_compute validConfigurations in Hbs.
  each_member Hbs; injection Hbs as -> -> ->; vm_compute; reflexivity.
Qed.

Lemma generator_prefers_some_configurations_witness :
  length (producedBy fallbackBoxes) = 1.
Proof.
  apply (generator_prefers_some_configurations
           (mkBox "matchbox-1" "white-white" "Red and Red")
           (mkBox "matchbox-2" "red-red" "Red and White")
           (mkBox "matchbox-3" "red-white" "White and White")).
  - reflexivity.
  - exact fallbackBoxes_valid.
Defined.

(** ** The label selectors and the submit gate *)

Lemma elem_of_selectedValues st v :
  v ∈ selectedValues st ↔
  v ≠ "" ∧ ∃ i, userLabelSelections st !! i = Some v.
Proof.
  unfold selectedValues. rewrite list_elem_of_In, filter_In, <- list_elem_of_In.
  rewrite negb_true_iff, bool_decide_eq_false, list_elem_of_fmap.
  split.
  - intros [([i v'] & -> & Hin%elem_of_map_to_list) Hne]. eauto.
  - intros [Hne (i & Hi)]. split; [|done].
    exists (i, v). split; [done|]. by apply elem_of_map_to_list.
Qed.

Lemma elem_of_dropdownOptions st box v :
  v ∈ dropdownOptions st box ↔
  v = "" ∨ (v ∈ GAME_CONFIG.BOX_LABELS ∧
            (v ∉ selectedValues st ∨
             JS.get (userLabelSelections st) (id box) = JS.VString v)).
Proof.
  unfold dropdownOptions. rewrite elem_of_cons.
  rewrite list_elem_of_In, filter_In, <- list_elem_of_In.
  rewrite orb_true_iff, negb_true_iff, bool_decide_eq_false.
  unfold JS.strict_eq. rewrite bool_decide_eq_true.
  split; (intros [?|[? [?|?]]]; [by left|right; split; auto..]).
Qed.

Lemma allSelected_true st i v :
  allSelected st = true → userLabelSelections st !! i = Some v → v ≠ "".
Proof.
  intros Hall Hi ->. by rewrite (allSelected_false st i Hi) in Hall.
Qed.

Lemma emptySelections_ok st :
  userLabelSelections st = emptySelections → selections_ok st.
Proof.
  intros Hsel. split; rewrite Hsel.
  - intros i. unfold emptySelections, BOX_IDS. simpl.
    rewrite !lookup_insert_is_Some, lookup_empty, !elem_of_cons, elem_of_nil.
    rewrite is_Some_alt.
    split; [intuition (subst; auto)|intros [->|[->|[->|[]]]]; by_evaluation].
  - intros i v. unfold emptySelections. simpl.
    rewrite !lookup_insert_Some, lookup_empty. intuition (subst; auto; congruence).
  - intros i j v. unfold emptySelections. simpl.
    rewrite !lookup_insert_Some, lookup_empty. intuition congruence.
Qed.

Lemma selects_selections_ok st st' :
  well_formed st → selections_ok st → selects st st' →
  selections_ok st' ∧ well_formed st' ∧ boxes st' = boxes st.
Proof.
  intros Hwf [Hkeys Hvalues Hdistinct] [box value Hbox Hvalue].
  split; [|done].
  assert (id box ∈ BOX_IDS) as Hid.
  { rewrite <- Hwf. by apply list_elem_of_fmap_2. }
  apply elem_of_dropdownOptions in Hvalue.
  assert (∀ j, j ≠ id box → userLabelSelections st !! j = Some value →
               value ≠ "" → False) as Hfree.
  { intros j Hj Hsel Hne.
    destruct Hvalue as [->|[_ [Hfresh | Hcurrent]]]; [done| |].
    - apply Hfresh, elem_of_selectedValues. eauto.
    - apply Hkeys in Hid as [x Hx]. unfold JS.get in Hcurrent.
      rewrite Hx in Hcurrent. injection Hcurrent as ->.
      by apply Hj, (Hdistinct _ _ value). }
  split; simpl.
  - intros i. rewrite lookup_insert_is_Some, Hkeys.
    split; [intros [<-|[_ ?]]; done|].
    destruct (decide (id box = i)); auto.
  - intros i v. rewrite lookup_insert_Some.
    intros [[_ <-]|[_ Hi]]; [|by eapply Hvalues].
    destruct Hvalue as [->|[? _]]; auto.
  - intros i j v. rewrite !lookup_insert_Some.
    intros [[<- <-]|[Hi Hsi]] [[<- Hv]|[Hj Hsj]] Hne; try done.
    + exfalso. by eapply (Hfree j).
    + exfalso. subst v. by eapply (Hfree i).
    + by eapply Hdistinct.
Qed.

(** X9: the selectors keep the guesses free of duplicates.  From a state
    with the three boxes whose guesses are those of the three boxes, each
    empty or a label and no label held twice (the state after a reset is
    one), any series of choices among the options the selectors offer leads
    to such a state again, and leaves the boxes as they are. *)
Theorem selectors_keep_guesses_distinct (st st' : GameState) :
  well_formed st → selections_ok st →
  rtc selects st st' →
  selections_ok st' ∧ well_formed st' ∧ boxes st' = boxes st.
Proof.
  intros Hwf Hok Hsteps. induction Hsteps as [st|st st1 st2 Hstep _ IH].
  { done. }
  destruct (selects_selections_ok _ _ Hwf Hok Hstep) as (Hok1 & Hwf1 & Hbs1).
  destruct (IH Hwf1 Hok1) as (Hok2 & Hwf2 & Hbs2).
  split_and!; [done..|]. by rewrite Hbs2.
Qed.

Lemma selectors_keep_guesses_distinct_witness :
  selections_ok
    (recordSelection "matchbox-2" "Red and Red"
       (recordSelection "matchbox-1" "White and White" fallbackState)).
Proof.
  apply (selectors_keep_guesses_distinct fallbackState).
  - reflexivity.
  - by apply emptySelections_ok.
  - eapply rtc_l.
    { apply (selects_option fallbackState
               (mkBox "matchbox-1" "white-white" "Red and Red")
               "White and White"); by_evaluation. }
    apply rtc_once.
    apply (selects_option _ (mkBox "matchbox-2" "red-red" "Red and White")
             "Red and Red"); by_evaluation.
Defined.

(** X10: when the submit flag is true in a state whose guesses are free of
    duplicates, the guesses of the three boxes are the three labels, each
    once: the GuessSet is a bijection onto the labels. *)
Theorem submit_enabled_guesses_bijective (st : GameState) :
  well_formed st → selections_ok st →
  allSelected st = true →
  guesses st ≡ₚ JS.VString <$> GAME_CONFIG.BOX_LABELS.
Proof.
  intros Hwf [Hkeys Hvalues Hdistinct] Hall.
  destruct (well_formed_inv _ Hwf) as (c1 & l1 & c2 & l2 & c3 & l3 & Hbs).
  assert (∀ i, i ∈ BOX_IDS →
               ∃ v, userLabelSelections st !! i = Some v ∧ v ≠ "" ∧
                    v ∈ GAME_CONFIG.BOX_LABELS) as Hsel.
  { intros i [v Hv]%Hkeys. exists v.
    pose proof (allSelected_true _ _ _ Hall Hv) as Hne.
    split_and!; [done..|]. by destruct (Hvalues _ _ Hv). }
  destruct (Hsel "matchbox-1") as (v1 & H1 & Hne1 & Hl1); [by_evaluation|].
  destruct (Hsel "matchbox-2") as (v2 & H2 & Hne2 & Hl2); [by_evaluation|].
  destruct (Hsel "matchbox-3") as (v3 & H3 & Hne3 & Hl3); [by_evaluation|].
  assert ([v1; v2; v3] ≡ₚ GAME_CONFIG.BOX_LABELS) as Hperm.
  { apply NoDup_subset_Permutation; [| |done].
    - assert (v1 ≠ v2) by (intros ->; by pose proof (Hdistinct _ _ _ H1 H2 Hne2)).
      assert (v1 ≠ v3) by (intros ->; by pose proof (Hdistinct _ _ _ H1 H3 Hne3)).
      assert (v2 ≠ v3) by (intros ->; by pose proof (Hdistinct _ _ _ H2 H3 Hne3)).
      rewrite !NoDup_cons, !not_elem_of_cons.
      split_and!; try done; try apply not_elem_of_nil. apply NoDup_nil_2.
    - intros x. rewrite !elem_of_cons, elem_of_nil.
      intros [->|[->|[->|[]]]]; done. }
  rewrite <- Hperm. unfold guesses, JS.get. rewrite Hbs. simpl.
  by rewrite H1, H2, H3.
Qed.

Lemma swappedState_selections_ok : selections_ok swappedState.
Proof.
  pose proof (emptySelections_ok fallbackState eq_refl) as Hok0.
  assert (selects fallbackState
            (recordSelection "matchbox-1" "Red and Red" fallbackState)) as Hs1.
  { apply (selects_option fallbackState
             (mkBox "matchbox-1" "white-white" "Red and Red") "Red and Red");
      by_evaluation. }
  destruct (selects_selections_ok _ _ (fallbackBoxes_well_formed _) Hok0 Hs1)
    as (Hok1 & Hwf1 & _).
  assert (selects (recordSelection "matchbox-1" "Red and Red" fallbackState)
            (recordSelection "matchbox-2" "White and White"
               (recordSelection "matchbox-1" "Red and Red" fallbackState)))
    as Hs2.
  { apply (selects_option
             (recordSelection "matchbox-1" "Red and Red" fallbackState)
             (mkBox "matchbox-2" "red-red" "Red and White") "White and White");
      by_evaluation. }
  destruct (selects_selections_ok _ _ Hwf1 Hok1 Hs2) as (Hok2 & Hwf2 & _).
  assert (selects
            (recordSelection "matchbox-2" "White and White"
               (recordSelection "matchbox-1" "Red and Red" fallbackState))
            swappedState) as Hs3.
  { apply (selects_option
             (recordSelection "matchbox-2" "White and White"
                (recordSelection "matchbox-1" "Red and Red" fallbackState))
             (mkBox "matchbox-3" "red-white" "White and White") "Red and White");
      by_evaluation. }
  by destruct (selects_selections_ok _ _ Hwf2 Hok2 Hs3) as (Hok3 & _ & _).
Qed.

Lemma submit_enabled_guesses_bijective_witness :
  guesses swappedState ≡ₚ JS.VString <$> GAME_CONFIG.BOX_LABELS.
Proof.
  apply (submit_enabled_guesses_bijective swappedState).
  - reflexivity.
  - exact swappedState_selections_ok.
  - vm_compute. reflexivity.
Defined.

(** ** Scores and the results panel *)

(** X11: a GuessSet that is a bijection onto the labels never scores exactly
    two on a configuration holding each kind of contents once: the score is
    0, 1 or 3. *)
Theorem bijective_guess_never_scores_two (st : GameState) :
  well_formed st →
  contents <$> boxes st ≡ₚ GAME_CONFIG.BOX_CONTENTS →
  guesses st ≡ₚ JS.VString <$> GAME_CONFIG.BOX_LABELS →
  correct (calculateResults st) = 0 ∨
  correct (calculateResults st) = 1 ∨
  correct (calculateResults st) = 3.
Proof.
  intros Hwf Hc Hg. rewrite calculateResults_unfold. simpl.
  destruct (well_formed_inv _ Hwf) as (c1 & l1 & c2 & l2 & c3 & l3 & Hbs).
  unfold guesses in Hg. rewrite Hbs in Hc, Hg |- *. simpl in Hc, Hg.
  unfold matchCount, guessIsCorrect.
  rewrite !filter_cons, filter_nil. simpl.
  apply contents_cases in Hc. vm_compute permutations in Hc.
  symmetry in Hg. apply permutations_Permutation in Hg.
  vm_compute (permutations _) in Hg.
  each_member Hc; injection Hc as -> -> ->;
    each_member Hg; injection Hg as -> -> ->; vm_compute; auto.
Qed.

Lemma bijective_guess_never_scores_two_witness :
  correct (calculateResults swappedState) = 0 ∨
  correct (calculateResults swappedState) = 1 ∨
  correct (calculateResults swappedState) = 3.
Proof.
  apply (bijective_guess_never_scores_two swappedState).
  - reflexivity.
  - reflexivity.
  - by_evaluation.
Defined.

Lemma matchCount_length_iff selections bs :
  matchCount selections bs = length bs ↔
  Forall (λ box, guessIsCorrect selections box = true) bs.
Proof.
  split; [|apply matchCount_all].
  unfold matchCount. induction bs as [|box rest IH]; [by constructor|].
  rewrite filter_cons. case_decide as Hbox; simpl.
  - intros [= Hrest]. constructor; auto.
  - intros Hlen. pose proof (length_filter
      (λ box, guessIsCorrect selections box = true) rest). lia.
Qed.

Lemma statusClass_details selections (g : nat → nat) bs :
  Forall (λ d, statusClass d = "correct")
         (imap (λ i, detailOf selections (g i)) bs) ↔
  Forall (λ box, guessIsCorrect selections box = true) bs.
Proof.
  revert g. induction bs as [|box rest IH]; intros g.
  { split; constructor. }
  rewrite imap_cons, !Forall_cons, (IH (g ∘ S)).
  unfold statusClass. simpl.
  destruct (guessIsCorrect selections box); split; intros [? ?]; split; done.
Qed.

(** X12: the results panel takes the class 'success' exactly when every
    guess equals the label derived from the contents of its box, which is
    exactly when every entry of the details has the class 'correct'. *)
Theorem success_iff_all_correct (st : GameState) :
  (resultClass (calculateResults st) = "success" ↔
   ∀ box, box ∈ boxes st →
          JS.get (userLabelSelections st) (id box) = getCorrectLabelForBox box) ∧
  (resultClass (calculateResults st) = "success" ↔
   Forall (λ d, statusClass d = "correct") (details (calculateResults st))).
Proof.
  rewrite calculateResults_unfold. unfold resultClass, isPerfect. simpl.
  assert ((if bool_decide (matchCount (userLabelSelections st) (boxes st)
                           = length (boxes st))
           then "success" else "partial") = "success"
          ↔ Forall (λ box, guessIsCorrect (userLabelSelections st) box = true)
                   (boxes st)) as Hiff.
  { rewrite <- matchCount_length_iff. case_bool_decide; split; done. }
  split.
  - rewrite Hiff, Forall_forall.
    unfold guessIsCorrect, JS.strict_eq.
    split; intros Hall box Hbox; specialize (Hall box Hbox);
      by apply bool_decide_eq_true in Hall || by apply bool_decide_eq_true.
  - rewrite Hiff. symmetry.
    exact (statusClass_details (userLabelSelections st) (λ i, i) (boxes st)).
Qed.

(** ** The text of the contents *)

Lemma substring_all s : String.substring 0 (String.length s) s = s.
Proof. induction s as [|c s IH]; simpl; [done|]. by rewrite IH. Qed.

Lemma plain_char_lower c :
  plain_char c = true →
  JS.toLowerCase_ascii c = c ∧
  JS.toLowerCase_ascii (JS.toUpperCase_ascii c) = c ∧
  c ≠ "-"%char.
Proof.
  destruct c as [[] [] [] [] [] [] [] []]; vm_compute; intros; split_and!;
    congruence.
Qed.

Lemma toLowerCase_plain s : plain s = true → JS.toLowerCase s = s.
Proof.
  induction s as [|c s IH]; simpl; [done|].
  intros [Hc Hs]%andb_true_iff.
  destruct (plain_char_lower c Hc) as (-> & _). by rewrite IH.
Qed.

Lemma toLowerCase_capitalize s :
  plain s = true → JS.toLowerCase (capitalize s) = s.
Proof.
  destruct s as [|c s]; [done|]. simpl.
  intros [Hc Hs]%andb_true_iff.
  unfold capitalize, JS.charAt, JS.slice. simpl.
  rewrite Nat.sub_0_r, substring_all.
  destruct (plain_char_lower c Hc) as (_ & -> & _).
  by rewrite toLowerCase_plain.
Qed.

Lemma toLowerCase_append s t :
  JS.toLowerCase (String.append s t)
  = String.append (JS.toLowerCase s) (JS.toLowerCase t).
Proof. induction s as [|c s IH]; simpl; [done|]. by rewrite IH. Qed.

Lemma split_plain s : plain s = true → JS.split "-"%char s = [s].
Proof.
  induction s as [|c s IH]; simpl; [done|].
  intros [Hc Hs]%andb_true_iff.
  destruct (plain_char_lower c Hc) as (_ & _ & Hne).
  rewrite bool_decide_eq_false_2 by done. by rewrite IH.
Qed.

Lemma split_plain_hyphen s t :
  plain s = true →
  JS.split "-"%char (String.append s (String "-"%char t))
  = s :: JS.split "-"%char t.
Proof.
  induction s as [|c s IH]; simpl; [done|].
  intros [Hc Hs]%andb_true_iff.
  destruct (plain_char_lower c Hc) as (_ & _ & Hne).
  rewrite bool_decide_eq_false_2 by done. by rewrite IH.
Qed.

Lemma replace_other_char c s :
  c ≠ " "%char →
  JS.replace " and " "-" (String c s) = String c (JS.replace " and " "-" s).
Proof.
  intros Hne.
  change (JS.replace " and " "-" (String c s))
    with (if String.prefix " and " (String c s)
          then String.append "-"
                 (String.substring (String.length " and ")
                    (String.length (String c s) - String.length " and ")
                    (String c s))
          else String c (JS.replace " and " "-" s)).
  cbn [String.prefix]. destruct (ascii_dec " " c); [congruence|reflexivity].
Qed.

Lemma no_space_char c : negb (nat_of_ascii c =? 32) = true → c ≠ " "%char.
Proof. intros H ->. discriminate H. Qed.

Lemma replace_after_no_space s t :
  no_space s = true →
  JS.replace " and " "-" (String.append s (String.append " and " t))
  = String.append s (String "-"%char t).
Proof.
  induction s as [|c s IH].
  - intros _.
    change (JS.replace " and " "-"
              (String " " (String "a" (String "n" (String "d" (String " " t)))))
            = String "-" t).
    cbn. rewrite Nat.sub_0_r, substring_all. by destruct t.
  - intros [Hc%no_space_char Hs]%andb_true_iff.
    change (String.append (String c s) (String.append " and " t))
      with (String c (String.append s (String.append " and " t))).
    rewrite replace_other_char by done. by rewrite IH.
Qed.

(** X13: [formatContents] and the normalisation of
    [checkContentsMatchLabel] are inverse on every pair of colours written
    in ASCII without capital letters, hyphens or, in the first colour,
    spaces: the text [formatContents] gives for the contents 'a-b', taken as
    a label, matches the contents 'a-b'. *)
Theorem formatContents_round_trip (i a b : string) :
  plain a = true → no_space a = true → plain b = true →
  let contents := String.append a (String "-"%char b) in
  formatContents contents
  = String.append (capitalize a) (String.append " and " (capitalize b)) ∧
  JS.replace " and " "-" (JS.toLowerCase (formatContents contents)) = contents ∧
  checkContentsMatchLabel (mkBox i contents (formatContents contents)) = true.
Proof.
  intros Ha Hsp Hb contents.
  assert (formatContents contents
          = String.append (capitalize a) (String.append " and " (capitalize b)))
    as Hformat.
  { unfold formatContents, contents.
    rewrite split_plain_hyphen, split_plain by done. reflexivity. }
  assert (JS.replace " and " "-" (JS.toLowerCase (formatContents contents))
          = contents) as Hback.
  { rewrite Hformat, !toLowerCase_append, !toLowerCase_capitalize by done.
    by apply replace_after_no_space. }
  split_and!; [done..|].
  unfold checkContentsMatchLabel. simpl. by rewrite Hback, bool_decide_eq_true_2.
Qed.

Lemma formatContents_round_trip_witness :
  formatContents "red-white" = "Red and White" ∧
  JS.replace " and " "-" (JS.toLowerCase (formatContents "red-white"))
  = "red-white" ∧
  checkContentsMatchLabel
    (mkBox "matchbox-1" "red-white" (formatContents "red-white")) = true.
Proof.
  apply (formatContents_round_trip "matchbox-1" "red" "white"); reflexivity.
Defined.

(** X14: for boxes holding the three kinds of contents the results carry
    the same text twice: the label derived for a box is the text
    [formatContents] gives for its contents. *)
Theorem correctLabel_is_formatted_contents (st : GameState) (d : Detail) :
  Forall (λ box, contents box ∈ GAME_CONFIG.BOX_CONTENTS) (boxes st) →
  d ∈ details (calculateResults st) →
  correctLabel d = JS.VString (formatContents (actualContents d)).
Proof.
  intros Hvalid. rewrite calculateResults_unfold. simpl.
  intros (k & Hd)%list_elem_of_lookup_1. rewrite list_lookup_imap in Hd.
  destruct (boxes st !! k) as [box|] eqn:Hk; [|done].
  injection Hd as <-. simpl.
  rewrite Forall_forall in Hvalid.
  assert (contents box ∈ GAME_CONFIG.BOX_CONTENTS) as Hc.
  { apply Hvalid. by eapply list_elem_of_lookup_2. }
  destruct box as [i c l]. simpl in *.
  apply BOX_CONTENTS_cases in Hc as [-> | [-> | ->]]; vm_compute; reflexivity.
Qed.

Lemma correctLabel_is_formatted_contents_witness :
  correctLabel (detailOf (userLabelSelections swappedState) 0
                  (mkBox "matchbox-1" "white-white" "Red and Red"))
  = JS.VString
      (formatContents
         (actualContents (detailOf (userLabelSelections swappedState) 0
                            (mkBox "matchbox-1" "white-white" "Red and Red")))).
Proof.
  apply (correctLabel_is_formatted_contents swappedState).
  - repeat constructor; by_evaluation.
  - rewrite calculateResults_unfold. left.
Defined.

(** ** Peeking into a box *)

(** X15: the marble shown for a box that holds one of the three kinds of
    contents is a marble of that box: with an index below 2 the markup is
    that of 'red' or of 'white', of 'white' for a box of two white marbles
    and of 'red' for a box of two red ones; the contents split in two, so
    the index [Math.floor(Math.random() * 2)] is in range and nothing is
    thrown. *)
Theorem peek_shows_a_marble_of_the_box (box : Box) (randomIndex : nat) :
  contents box ∈ GAME_CONFIG.BOX_CONTENTS →
  randomIndex < 2 →
  length (JS.split "-"%char (contents box)) = 2 ∧
  ∃ marble,
    getMarbleVisualization (contents box) randomIndex
    = JS.Returned (marbleDiv marble) ∧
    marble ∈ JS.split "-"%char (contents box) ∧
    (marble = "red" ∨ marble = "white") ∧
    (contents box = "white-white" → marble = "white") ∧
    (contents box = "red-red" → marble = "red").
Proof.
  destruct box as [i c l]. simpl.
  intros [-> | [-> | ->]]%BOX_CONTENTS_cases Hlt;
    (split; [reflexivity|]);
    destruct randomIndex as [|[|?]]; try lia;
    eexists; (split; [reflexivity|]);
    (split; [by_evaluation|]); split_and!; auto; done.
Qed.

Lemma peek_shows_a_marble_of_the_box_witness :
  length (JS.split "-"%char "red-white") = 2 ∧
  ∃ marble,
    getMarbleVisualization "red-white" 1 = JS.Returned (marbleDiv marble) ∧
    marble ∈ JS.split "-"%char "red-white" ∧
    (marble = "red" ∨ marble = "white") ∧
    ("red-white" = "white-white" → marble = "white") ∧
    ("red-white" = "red-red" → marble = "red").
Proof.
  apply (peek_shows_a_marble_of_the_box
           (mkBox "matchbox-3" "red-white" "White and White") 1);
    [by_evaluation|lia].
Defined.

Lemma valid_configuration_relabel bs :
  valid_configuration bs →
  ∃ i1 i2 i3 bs0,
    bs0 ∈ validConfigurations ∧
    bs = zip_with (λ i b, mkBox i (contents b) (label b)) [i1; i2; i3] bs0.
Proof.
  intros [Hc Hl Hm].
  pose proof (Permutation_length Hc) as Hlen. rewrite length_fmap in Hlen.
  destruct bs as [|[i1 c1 l1] [|[i2 c2 l2] [|[i3 c3 l3] [|? ?]]]];
    try discriminate Hlen.
  exists i1, i2, i3,
    [mkBox "matchbox-1" c1 l1; mkBox "matchbox-2" c2 l2; mkBox "matchbox-3" c3 l3].
  split; [|reflexivity].
  apply valid_configuration_cases; [reflexivity|].
  split; [exact Hc|exact Hl|].
  rewrite !Forall_cons in Hm |- *. exact Hm.
Qed.

(** In a valid configuration the contents of the box labelled
    'Red and White' settle the contents of every box. *)
Lemma red_and_white_box_decides bs box :
  valid_configuration bs → box ∈ bs → label box = "Red and White" →
  (contents box = "white-white" ∧
   ∀ b, b ∈ bs → (label b = "Red and White" → contents b = "white-white") ∧
                 (label b = "Red and Red" → contents b = "red-white") ∧
                 (label b = "White and White" → contents b = "red-red")) ∨
  (contents box = "red-red" ∧
   ∀ b, b ∈ bs → (label b = "Red and White" → contents b = "red-red") ∧
                 (label b = "Red and Red" → contents b = "white-white") ∧
                 (label b = "White and White" → contents b = "red-white")).
Proof.
  intros (i1 & i2 & i3 & bs0 & Hbs0 & ->)%valid_configuration_relabel.
  vm_compute validConfigurations in Hbs0.
  each_member Hbs0; simpl; intros Hbox Hlabel;
    each_member Hbox; simpl in Hlabel; try discriminate Hlabel;
    first
      [ left; split; [reflexivity|];
        intros b Hb; each_member Hb; simpl; split_and!; intros; done
      | right; split; [reflexivity|];
        intros b Hb; each_member Hb; simpl; split_and!; intros; done ].
Qed.

Lemma peek_same_colour c c' r r' html :
  c = "white-white" ∨ c = "red-red" →
  c' = "white-white" ∨ c' = "red-red" →
  r < 2 → r' < 2 →
  getMarbleVisualization c r = JS.Returned html →
  getMarbleVisualization c' r' = JS.Returned html →
  c = c'.
Proof.
  intros [-> | ->] [-> | ->] Hr Hr'; try done;
    destruct r as [|[|?]]; try lia; destruct r' as [|[|?]]; try lia;
    vm_compute; intros [= <-] [=].
Qed.

(** X16: one peek into the box labelled 'Red and White' settles the puzzle.
    Two valid configurations that display the same labels, and whose boxes
    labelled 'Red and White' can show the same marble, hold the same
    contents box by box. *)
Theorem peek_settles_the_puzzle (bs bs' : list Box) (k : nat) (box box' : Box)
    (r r' : nat) (html : string) :
  valid_configuration bs → valid_configuration bs' →
  label <$> bs = label <$> bs' →
  bs !! k = Some box → bs' !! k = Some box' →
  label box = "Red and White" →
  r < 2 → r' < 2 →
  getMarbleVisualization (contents box) r = JS.Returned html →
  getMarbleVisualization (contents box') r' = JS.Returned html →
  contents <$> bs = contents <$> bs'.
Proof.
  intros Hvalid Hvalid' Hlabels Hk Hk' Hlabel Hr Hr' Hshown Hshown'.
  assert (label box' = "Red and White") as Hlabel'.
  { assert ((label <$> bs') !! k = Some (label box)) as Hl.
    { by rewrite <- Hlabels, list_lookup_fmap, Hk. }
    rewrite list_lookup_fmap, Hk' in Hl. injection Hl as ->. done. }
  pose proof (red_and_white_box_decides bs box Hvalid
                (list_elem_of_lookup_2 _ _ _ Hk) Hlabel) as Hbs.
  pose proof (red_and_white_box_decides bs' box' Hvalid'
                (list_elem_of_lookup_2 _ _ _ Hk') Hlabel') as Hbs'.
  assert (contents box = contents box') as Hsame.
  { eapply peek_same_colour; [| |exact Hr|exact Hr'|exact Hshown|exact Hshown'].
    - destruct Hbs as [[? _]|[? _]]; auto.
    - destruct Hbs' as [[? _]|[? _]]; auto. }
  apply list_eq. intros n. rewrite !list_lookup_fmap.
  assert ((label <$> bs) !! n = (label <$> bs') !! n) as Hn by (by rewrite Hlabels).
  rewrite !list_lookup_fmap in Hn.
  destruct (bs !! n) as [b|] eqn:Hb, (bs' !! n) as [b'|] eqn:Hb';
    simpl in *; try done.
  injection Hn as Hn. f_equal.
  assert (label b ∈ GAME_CONFIG.BOX_LABELS) as Hin.
  { destruct Hvalid as [_ Hl _]. rewrite <- Hl.
    apply list_elem_of_fmap_2. by eapply list_elem_of_lookup_2. }
  apply list_elem_of_lookup_2 in Hb, Hb'.
  destruct Hbs as [[Hc Hall]|[Hc Hall]], Hbs' as [[Hc' Hall']|[Hc' Hall']];
    try congruence;
    destruct (Hall b Hb) as (H1 & H2 & H3);
    destruct (Hall' b' Hb') as (H1' & H2' & H3');
    apply BOX_LABELS_cases in Hin as [Hl | [Hl | Hl]];
    rewrite ?H1, ?H2, ?H3, ?H1', ?H2', ?H3' by congruence; done.
Qed.

Lemma peek_settles_the_puzzle_witness :
  contents <$> fallbackBoxes = contents <$> fallbackBoxes.
Proof.
  apply (peek_settles_the_puzzle fallbackBoxes fallbackBoxes 1
           (mkBox "matchbox-2" "red-red" "Red and White")
           (mkBox "matchbox-2" "red-red" "Red and White")
           0 1 (marbleDiv "red")).
  - exact fallbackBoxes_valid.
  - exact fallbackBoxes_valid.
  - reflexivity.
  - reflexivity.
  - reflexivity.
  - reflexivity.
  - lia.
  - lia.
  - reflexivity.
  - reflexivity.
Defined.

Lemma otherBoxes_valid : valid_configuration otherBoxes.
Proof.
  split; [by_evaluation..|]. repeat constructor; vm_compute; congruence.
Qed.

(** X17: a peek into a box that displays another label does not settle the
    puzzle: for each of the labels 'Red and Red' and 'White and White' there
    are two valid configurations that display the same labels and can show
    the same marble from the box with that label, and hold different
    contents. *)
Theorem peek_elsewhere_is_ambiguous (l : string) :
  l ∈ GAME_CONFIG.BOX_LABELS → l ≠ "Red and White" →
  ∃ bs bs' k box box' r r' html,
    valid_configuration bs ∧ valid_configuration bs' ∧
    label <$> bs = label <$> bs' ∧
    bs !! k = Some box ∧ bs' !! k = Some box' ∧
    label box = l ∧
    r < 2 ∧ r' < 2 ∧
    getMarbleVisualization (contents box) r = JS.Returned html ∧
    getMarbleVisualization (contents box') r' = JS.Returned html ∧
    contents <$> bs ≠ contents <$> bs'.
Proof.
  intros [-> | [-> | ->]]%BOX_LABELS_cases Hne; [| |done].
  - exists fallbackBoxes, otherBoxes, 2.
    do 2 eexists. exists 0, 0. eexists.
    split_and!; [exact fallbackBoxes_valid|exact otherBoxes_valid|
                 reflexivity..|lia|lia|reflexivity|reflexivity|discriminate].
  - exists fallbackBoxes, otherBoxes, 0.
    do 2 eexists. exists 0, 1. eexists.
    split_and!; [exact fallbackBoxes_valid|exact otherBoxes_valid|
                 reflexivity..|lia|lia|reflexivity|reflexivity|discriminate].
Qed.

Lemma peek_elsewhere_is_ambiguous_witness :
  ∃ bs bs' k box box' r r' html,
    valid_configuration bs ∧ valid_configuration bs' ∧
    label <$> bs = label <$> bs' ∧
    bs !! k = Some box ∧ bs' !! k = Some box' ∧
    label box = "Red and Red" ∧
    r < 2 ∧ r' < 2 ∧
    getMarbleVisualization (contents box) r = JS.Returned html ∧
    getMarbleVisualization (contents box') r' = JS.Returned html ∧
    contents <$> bs ≠ contents <$> bs'.
Proof.
  apply (peek_elsewhere_is_ambiguous "Red and Red"); [by_evaluation|done].
Defined.

(** X18: in a state whose guesses are free of duplicates the selector of a
    box offers the placeholder and exactly the labels that no other box
    holds: a label held by another box is never offered, the label the box
    holds itself always is. *)
Theorem dropdown_offers_free_labels (st : GameState) (box : Box) (v : string) :
  selections_ok st →
  id box ∈ BOX_IDS →
  v ∈ dropdownOptions st box ↔
  v = "" ∨ (v ∈ GAME_CONFIG.BOX_LABELS ∧
            ∀ j, j ≠ id box → userLabelSelections st !! j ≠ Some v).
Proof.
  intros [Hkeys Hvalues Hdistinct] Hid.
  rewrite elem_of_dropdownOptions.
  assert (v ∈ GAME_CONFIG.BOX_LABELS → v ≠ "") as Hne.
  { intros [-> | [-> | ->]]%BOX_LABELS_cases; done. }
  apply Hkeys in Hid as [current Hcurrent].
  unfold JS.get. rewrite Hcurrent.
  split; (intros [->|[Hv Hfree]]; [by left|right; split; [done|]]).
  - intros j Hj Hsel. destruct Hfree as [Hfresh | [= ->]].
    + apply Hfresh, elem_of_selectedValues. eauto.
    + apply Hj. by apply (Hdistinct _ _ v); auto.
  - destruct (decide (v ∈ selectedValues st)) as [Hin|]; [|by left].
    right. apply elem_of_selectedValues in Hin as [_ (i & Hi)].
    destruct (decide (i = id box)) as [->|Hother]; [congruence|].
    by destruct (Hfree i Hother).
Qed.

Lemma dropdown_offers_free_labels_witness :
  "Red and Red"
  ∈ dropdownOptions swappedState (mkBox "matchbox-1" "white-white" "Red and Red")
  ↔ "Red and Red" = "" ∨
    ("Red and Red" ∈ GAME_CONFIG.BOX_LABELS ∧
     ∀ j, j ≠ "matchbox-1" →
          userLabelSelections swappedState !! j ≠ Some "Red and Red").
Proof.
  apply (dropdown_offers_free_labels swappedState
           (mkBox "matchbox-1" "white-white" "Red and Red") "Red and Red").
  - exact swappedState_selections_ok.
  - by_evaluation.
Defined.

(** ** When the fallback is taken *)

Lemma tryGenerateValidConfiguration_dead_end r st :
  shuffles_ok r → well_formed st →
  (tryGenerateValidConfiguration r st).1 = negb (dead_end r).
Proof.
  intros Hr%shuffles_ok_cases Hwf.
  rewrite tryGenerateValidConfiguration_from_ids by done.
  vm_compute allShuffles in Hr.
  each_member Hr; vm_compute; reflexivity.
Qed.

(** The attempts before the one the loop leaves at are dead ends. *)
Lemma generateLoop_exit fuel maxAttempts a t rs st run :
  generateLoop fuel maxAttempts a t rs st = Some run →
  well_formed st → random_source_ok rs →
  (∀ n, a ≤ n < attempts run → dead_end (rs n) = true) ∧
  match exit run with
  | Success => dead_end (rs (attempts run)) = false
  | Fallback => attempts run = Nat.max a maxAttempts
  end.
Proof.
  intros Hrun Hwf Hrs. revert a t st Hrun Hwf.
  induction fuel as [|fuel IH]; intros a t st; [done|]. simpl.
  destruct (a <? maxAttempts)%nat eqn:Hlt.
  - apply Nat.ltb_lt in Hlt. intros Hrun Hwf.
    pose proof (tryGenerateValidConfiguration_dead_end (rs a) st (Hrs a) Hwf)
      as Hdead.
    destruct (tryGenerateValidConfiguration _ _) as [ok st'] eqn:Htry.
    simpl in Hdead. subst ok.
    destruct (dead_end (rs a)) eqn:Ha; simpl in Hrun.
    + assert (well_formed st') as Hwf'.
      { by eapply tryGenerateValidConfiguration_well_formed. }
      destruct (IH _ _ _ Hrun Hwf') as [Hbefore Hexit].
      split.
      * intros n [Hn1 Hn2]. destruct (decide (n = a)) as [->|]; [done|].
        apply Hbefore. lia.
      * destruct (exit run); [done|]. lia.
    + injection Hrun as <-. simpl. split; [intros; lia|done].
  - apply Nat.ltb_ge in Hlt. intros [= <-] _. simpl. split; intros; lia.
Qed.

(** X19: with a random source whose shuffles rearrange the contents and the
    labels, the generator takes the fallback exactly when in each of the 50
    attempts the last label of the label shuffle describes the last contents
    of the contents shuffle; otherwise it returns at the first attempt for
    which this is not so. *)
Theorem fallback_iff_every_attempt_dead_ends (rs : RandomSource)
    (st : GameState) :
  well_formed st → random_source_ok rs →
  ∃ run,
    generatePuzzleConfiguration rs st = Some run ∧
    (exit run = Fallback ↔
     ∀ n, n < GAME_CONFIG.MAX_ATTEMPTS → dead_end (rs n) = true) ∧
    (exit run = Success →
     attempts run < GAME_CONFIG.MAX_ATTEMPTS ∧
     dead_end (rs (attempts run)) = false ∧
     ∀ n, n < attempts run → dead_end (rs n) = true).
Proof.
  intros Hwf Hrs.
  destruct (generateLoop_terminates (S GAME_CONFIG.MAX_ATTEMPTS)
              GAME_CONFIG.MAX_ATTEMPTS 0 0 rs st)
    as (run & Hrun & Hbound & Hcount); [lia..|].
  destruct (generateLoop_exit _ _ _ _ _ _ _ Hrun Hwf Hrs) as [Hbefore Hexit].
  exists run. split; [exact Hrun|].
  destruct (exit run); split.
  - split; [done|]. intros Hall.
    rewrite Hall in Hexit; [done|lia].
  - intros _. split_and!; [lia|done|]. intros n Hn. apply Hbefore. lia.
  - split; [|done]. intros _ n Hn. apply Hbefore. lia.
  - done.
Qed.

Lemma fallback_iff_every_attempt_dead_ends_witness :
  ∃ run,
    generatePuzzleConfiguration fourthTimeLucky initialGameState = Some run ∧
    (exit run = Fallback ↔
     ∀ n, n < GAME_CONFIG.MAX_ATTEMPTS → dead_end (fourthTimeLucky n) = true) ∧
    (exit run = Success →
     attempts run < GAME_CONFIG.MAX_ATTEMPTS ∧
     dead_end (fourthTimeLucky (attempts run)) = false ∧
     ∀ n, n < attempts run → dead_end (fourthTimeLucky n) = true).
Proof.
  apply (fallback_iff_every_attempt_dead_ends fourthTimeLucky initialGameState).
  - reflexivity.
  - exact fourthTimeLucky_ok.
Defined.
